(** * Event reconciliation, date normalisation and ordering ([main.py])

    A shallow embedding of [save_to_excel]: the loader of the persisted
    sheet, the merge loop over the incoming events, [parse_date], [sort_key]
    and the final [sorted] call, followed by the properties of each. *)

From Stdlib Require Import List ZArith NArith Bool String Ascii Lia.
From Stdlib Require Import Permutation Sorted.
Import ListNotations.
Local Open Scope Z_scope.

(* ================================================================== *)
(** ** Python values *)
(* ================================================================== *)

(** A Python [str] is a sequence of Unicode code points. *)
Definition str := list N.

(** A literal of the source, written as a Rocq string of ASCII bytes. *)
Definition py (s : string) : str := map N_of_ascii (list_ascii_of_string s).

(** What a field of a record or a cell of the sheet holds: a [str], or
    [None] for a cell the workbook reader found empty.  Numeric and date
    typed cells are outside the model. *)
Definition cell := option str.

Definition str_eq_dec : forall a b : str, {a = b} + {a <> b} :=
  list_eq_dec N.eq_dec.

Definition cell_eq_dec (a b : cell) : {a = b} + {a <> b}.
Proof. decide equality; apply str_eq_dec. Defined.

Definition cell_eqb (a b : cell) : bool :=
  if cell_eq_dec a b then true else false.

(** The exceptions the modelled code can meet. *)
Inductive exn := ValueError | TypeError | AttributeError | IndexError.

Inductive result (A : Type) :=
| Ok (a : A)
| Raise (e : exn).
Arguments Ok {A} a.
Arguments Raise {A} e.

Definition bind {A B} (m : result A) (f : A -> result B) : result B :=
  match m with Ok a => f a | Raise e => Raise e end.

Notation "x <- m ;; k" := (bind m (fun x => k))
  (at level 61, m at next level, right associativity).

(** [try: body  except ValueError: handler]: only [ValueError] is caught. *)
Definition try_except_ValueError {A} (body handler : result A) : result A :=
  match body with
  | Raise ValueError => handler
  | other => other
  end.

Fixpoint mapM {A B} (f : A -> result B) (l : list A) : result (list B) :=
  match l with
  | [] => Ok []
  | a :: l' => b <- f a ;; bs <- mapM f l' ;; Ok (b :: bs)
  end.

(* ================================================================== *)
(** ** Records, identity keys and the persisted mapping *)
(* ================================================================== *)

(** The dict every adapter builds and every sheet row is read into. *)
Record event := mkEvent {
  title : cell;
  date : cell;
  location : cell;
  url : cell;
  source : cell
}.

(** [key = (event['title'], event['url'], event['source'])] *)
Definition key : Type := cell * cell * cell.

Definition key_of (e : event) : key := (title e, url e, source e).

Definition key_eq_dec (a b : key) : {a = b} + {a <> b}.
Proof. decide equality; try apply cell_eq_dec. decide equality; apply cell_eq_dec. Defined.

Arguments str_eq_dec : simpl never.
Arguments cell_eq_dec : simpl never.
Arguments key_eq_dec : simpl never.
Arguments key_of : simpl never.

(** ['See details'], the placeholder of [date] and [location]. *)
Definition See_details : cell := Some (py "See details").

(** A Python dict keeps its keys in insertion order, and that order reaches
    [sorted] through [.values()]; hence a list of bindings. *)
Definition dict (V : Type) : Type := list (key * V).

(** [existing_events], with the records as values. *)
Definition pydict : Type := dict event.

Fixpoint dict_get {V} (k : key) (d : dict V) : option V :=
  match d with
  | [] => None
  | (k', v) :: d' => if key_eq_dec k k' then Some v else dict_get k d'
  end.

(** [d[k] = v]: a present key keeps its place, a new key goes last. *)
Fixpoint dict_set {V} (k : key) (v : V) (d : dict V) : dict V :=
  match d with
  | [] => [(k, v)]
  | (k', v') :: d' =>
      if key_eq_dec k k' then (k', v) :: d' else (k', v') :: dict_set k v d'
  end.

Definition dict_keys {V} (d : dict V) : list key := map fst d.
Definition dict_values {V} (d : dict V) : list V := map snd d.

(* ================================================================== *)
(** ** Loading the persisted sheet (lines 28-47) *)
(* ================================================================== *)

(** A row as [iter_rows(values_only=True)] yields it: a tuple of cells.
    The sheets of this development hold text and empty cells; a cell typed
    as a number or a date is outside the model.  [iter_rows] gives every
    row of a sheet the width of the sheet, which the statements that turn
    on the width of a row take as a hypothesis. *)
Definition row := list cell.

(** The body of the [for row in ws.iter_rows(...)] loop.  [row[0]] on an
    empty tuple and the five-way unpacking of a tuple of another width
    raise; the enclosing [except Exception] ends the loop there and keeps
    what was loaded so far. *)
Fixpoint load_rows (rows : list row) (existing_events : pydict) : pydict :=
  match rows with
  | [] => existing_events
  | r :: rest =>
      match r with
      | [] => existing_events
      | None :: _ => load_rows rest existing_events
      | Some _ :: _ =>
          match r with
          | [t; da; lo; ur; so] =>
              load_rows rest
                (dict_set (t, ur, so) (mkEvent t da lo ur so) existing_events)
          | _ => existing_events
          end
      end
  end.

(** The file at [filepath]: absent, unreadable ([load_workbook] raises), or
    a sheet whose first row is the header. *)
Inductive workbook :=
| Missing
| Unreadable
| Sheet (rows : list row).

Definition load_existing (f : workbook) : pydict :=
  match f with
  | Sheet rows => load_rows (skipn 1 rows) []
  | Missing | Unreadable => []
  end.

(* ================================================================== *)
(** ** The merge loop (lines 50-68) *)
(* ================================================================== *)

Definition set_date (e : event) (v : cell) : event :=
  mkEvent (title e) v (location e) (url e) (source e).

Definition set_location (e : event) (v : cell) : event :=
  mkEvent (title e) (date e) v (url e) (source e).

(** [existing.get(f) == 'See details' and event.get(f) != 'See details'] *)
Definition improves (stored incoming : cell) : bool :=
  cell_eqb stored See_details && negb (cell_eqb incoming See_details).

(** The [else] branch: the stored record after the two guarded writes. *)
Definition enrich (existing ev : event) : event :=
  let existing1 :=
    if improves (date existing) (date ev)
    then set_date existing (date ev) else existing in
  if improves (location existing1) (location ev)
  then set_location existing1 (location ev) else existing1.

(** [updated] at the end of the [else] branch. *)
Definition updated_flag (existing ev : event) : bool :=
  improves (date existing) (date ev)
  || improves (location existing) (location ev).

(** State of the loop: [existing_events], [new_count], [updated_count]. *)
Definition merge_state : Type := pydict * Z * Z.

Definition merge_event (st : merge_state) (ev : event) : merge_state :=
  let '(existing_events, new_count, updated_count) := st in
  let k := key_of ev in
  match dict_get k existing_events with
  | None => (dict_set k ev existing_events, new_count + 1, updated_count)
  | Some existing =>
      (dict_set k (enrich existing ev) existing_events,
       new_count,
       if updated_flag existing ev then updated_count + 1 else updated_count)
  end.

Definition merge_loop (st : merge_state) (events : list event) : merge_state :=
  fold_left merge_event events st.

(** The Reconciler of one run: the loop started with both counters at 0. *)
Definition reconcile (persisted : pydict) (events : list event) : merge_state :=
  merge_loop (persisted, 0, 0) events.

Definition merged (st : merge_state) : pydict := fst (fst st).
Definition new_count (st : merge_state) : Z := snd (fst st).
Definition updated_count (st : merge_state) : Z := snd st.

(* ================================================================== *)
(** ** The merge loop on shared objects *)
(* ================================================================== *)

(** In the source [existing_events[key] = event] files the incoming dict
    itself, and the two guarded writes change the filed dict in place, which
    may be an element of [events] met again later.  This is the same loop
    with the dicts as objects at addresses; [merge_refs_merge_loop] shows
    that the mapping it builds and its two counts are those of [merge_loop]
    on the values the objects had at the start. *)
Definition addr : Type := nat.
Definition heap : Type := addr -> event.

Definition store (h : heap) (a : addr) (v : event) : heap :=
  fun x => if Nat.eqb x a then v else h x.

(** [if existing.get('date') == ... : existing['date'] = event['date']] with
    [existing] at [a] and [event] at [r]. *)
Definition write_date (h : heap) (a r : addr) : heap :=
  if improves (date (h a)) (date (h r))
  then store h a (set_date (h a) (date (h r))) else h.

Definition write_location (h : heap) (a r : addr) : heap :=
  if improves (location (h a)) (location (h r))
  then store h a (set_location (h a) (location (h r))) else h.

Definition ref_state : Type := heap * dict addr * Z * Z.

Definition merge_ref (st : ref_state) (r : addr) : ref_state :=
  let '(h, existing_events, new_count, updated_count) := st in
  let k := key_of (h r) in
  match dict_get k existing_events with
  | None => (h, dict_set k r existing_events, new_count + 1, updated_count)
  | Some a =>
      let h1 := write_date h a r in
      let h2 := write_location h1 a r in
      (h2, existing_events, new_count,
       if improves (date (h a)) (date (h r))
          || improves (location (h1 a)) (location (h1 r))
       then updated_count + 1 else updated_count)
  end.

Definition merge_refs (st : ref_state) (events : list addr) : ref_state :=
  fold_left merge_ref events st.

(** The mapping of records a mapping of objects stands for. *)
Definition view (h : heap) (d : dict addr) : pydict :=
  map (fun kv => (fst kv, h (snd kv))) d.

Definition view_state (st : ref_state) : merge_state :=
  let '(h, d, n, u) := st in (view h d, n, u).

(** [x] has the identity of [y] and a placeholder only where [y] has one. *)
Definition absorbs (x y : event) : Prop :=
  key_of x = key_of y
  /\ (date x = See_details -> date y = See_details)
  /\ (location x = See_details -> location y = See_details).

(** What the loop on objects keeps true, [h0] being the objects at the
    start: every object is filed under its own key, no key twice, and an
    object that has changed is the one filed under its key. *)
Record ref_inv (h0 h : heap) (d : dict addr) : Prop := {
  inv_keyed : forall k a, In (k, a) d -> key_of (h a) = k;
  inv_nodup : NoDup (dict_keys d);
  inv_objects : forall r,
    h r = h0 r
    \/ (dict_get (key_of (h0 r)) d = Some r /\ absorbs (h r) (h0 r))
}.

(* ================================================================== *)
(** ** The character tables of the interpreter *)
(* ================================================================== *)

(** [re] and [str] classify code points through the interpreter's Unicode
    database, which is no part of this program: it is taken as a parameter.
    [Py_UNICODE_ISDECIMAL] decides [\d], [Py_UNICODE_ISALNUM] (with the
    underscore) decides [\w], [Py_UNICODE_ISSPACE] decides [\s],
    [Py_UNICODE_TODECIMAL] is the digit value [int] reads, and [str_lower]
    is [str.lower]. *)
Class UnicodeDB := {
  Py_UNICODE_ISDECIMAL : N -> bool;
  Py_UNICODE_TODECIMAL : N -> Z;
  Py_UNICODE_ISALNUM : N -> bool;
  Py_UNICODE_ISSPACE : N -> bool;
  str_lower : str -> str
}.

Definition in_range (lo hi c : N) : bool := ((lo <=? c) && (c <=? hi))%N.

(** The database on the first 256 code points (Basic Latin and Latin-1
    Supplement), enough for the German month names. *)
Definition latin1_isdecimal (c : N) : bool := in_range 48 57 c.

Definition latin1_todecimal (c : N) : Z := Z.of_N c - 48.

Definition latin1_isalnum (c : N) : bool :=
  in_range 48 57 c || in_range 65 90 c || in_range 97 122 c
  || (c =? 170)%N || in_range 178 179 c || (c =? 181)%N
  || in_range 185 186 c || in_range 188 190 c
  || in_range 192 214 c || in_range 216 246 c || in_range 248 255 c.

Definition latin1_isspace (c : N) : bool :=
  in_range 9 13 c || in_range 28 32 c || (c =? 133)%N || (c =? 160)%N.

Definition latin1_tolower (c : N) : N :=
  if in_range 65 90 c || in_range 192 214 c || in_range 216 222 c
  then (c + 32)%N else c.

Definition latin1_db : UnicodeDB := {|
  Py_UNICODE_ISDECIMAL := latin1_isdecimal;
  Py_UNICODE_TODECIMAL := latin1_todecimal;
  Py_UNICODE_ISALNUM := latin1_isalnum;
  Py_UNICODE_ISSPACE := latin1_isspace;
  str_lower := map latin1_tolower
|}.

Definition Latin1 (s : str) : Prop := Forall (fun c => (c < 256)%N) s.

(** A database that agrees with the tables above below code point 256, as
    the interpreter's does. *)
Record Latin1Compatible (U : UnicodeDB) : Prop := {
  compat_isdecimal :
    forall c, (c < 256)%N -> Py_UNICODE_ISDECIMAL c = latin1_isdecimal c;
  compat_todecimal :
    forall c, latin1_isdecimal c = true ->
              Py_UNICODE_TODECIMAL c = latin1_todecimal c;
  compat_isalnum :
    forall c, (c < 256)%N -> Py_UNICODE_ISALNUM c = latin1_isalnum c;
  compat_isspace :
    forall c, (c < 256)%N -> Py_UNICODE_ISSPACE c = latin1_isspace c;
  compat_lower :
    forall s, Latin1 s -> str_lower s = map latin1_tolower s
}.

(* ================================================================== *)
(** ** The fragment of [re] the two patterns use *)
(* ================================================================== *)

Inductive atom :=
| Digit            (* \d *)
| Word             (* \w *)
| Space            (* \s *)
| Lit (c : N).     (* an escaped or plain character *)

(** [a{lo,hi}] greedy, [hi = None] for no upper bound; [(r)] numbered;
    [r?] greedy. *)
Inductive regex :=
| Rep (a : atom) (lo : nat) (hi : option nat)
| Seq (r1 r2 : regex)
| Group (n : nat) (r : regex)
| Opt (r : regex).

Infix "+>" := Seq (at level 60, right associativity).

Definition one (a : atom) : regex := Rep a 1 (Some 1%nat).
Definition maybe (a : atom) : regex := Rep a 0 (Some 1%nat).
Definition star (a : atom) : regex := Rep a 0 None.
Definition plus (a : atom) : regex := Rep a 1 None.

Definition chr (s : string) : N :=
  match s with
  | String a _ => N_of_ascii a
  | EmptyString => 0%N
  end.

Definition atom_matches {U : UnicodeDB} (a : atom) (c : N) : bool :=
  match a with
  | Digit => Py_UNICODE_ISDECIMAL c
  | Word => Py_UNICODE_ISALNUM c || (c =? chr "_")%N
  | Space => Py_UNICODE_ISSPACE c
  | Lit x => (c =? x)%N
  end.

Definition stop_here (lo : nat) (s : str) : list str :=
  match lo with O => [s] | S _ => [] end.

Definition exhausted (hi : option nat) : bool :=
  match hi with Some O => true | _ => false end.

(** The remainders a greedy repetition of one character test can leave, in
    the order the backtracking matcher tries them: longest run first. *)
Fixpoint repeat_greedy (p : N -> bool) (lo : nat) (hi : option nat) (s : str)
  : list str :=
  if exhausted hi then stop_here lo s else
  match s with
  | c :: s' =>
      if p c
      then repeat_greedy p (pred lo) (option_map pred hi) s' ++ stop_here lo s
      else stop_here lo s
  | [] => stop_here lo s
  end.

(** Captured groups, most recent binding first. *)
Definition groups := list (nat * str).

Fixpoint group (m : groups) (n : nat) : option str :=
  match m with
  | [] => None
  | (n', v) :: m' => if Nat.eqb n n' then Some v else group m' n
  end.

(** The part of [s] in front of its suffix [rest]. *)
Definition consumed (s rest : str) : str :=
  firstn (List.length s - List.length rest) s.

(** Every way the pattern matches a prefix of [s], as (groups, remainder),
    in backtracking order. *)
Fixpoint exec {U : UnicodeDB} (r : regex) (s : str) (g : groups)
  : list (groups * str) :=
  match r with
  | Rep a lo hi => map (fun rest => (g, rest)) (repeat_greedy (atom_matches a) lo hi s)
  | Seq r1 r2 => flat_map (fun st => exec r2 (snd st) (fst st)) (exec r1 s g)
  | Group n r1 =>
      map (fun st => ((n, consumed s (snd st)) :: fst st, snd st)) (exec r1 s g)
  | Opt r1 => exec r1 s g ++ [(g, s)]
  end.

(** [re.match(pattern, s)]: the first match anchored at the start. *)
Definition re_match {U : UnicodeDB} (r : regex) (s : str) : option groups :=
  option_map fst (hd_error (exec r s [])).

(** [r'(\d{1,2})\.(\d{1,2})\.(\d{4})'] *)
Definition numeric_re : regex :=
  Group 1 (Rep Digit 1 (Some 2%nat)) +> one (Lit (chr ".")) +>
  Group 2 (Rep Digit 1 (Some 2%nat)) +> one (Lit (chr ".")) +>
  Group 3 (Rep Digit 4 (Some 4%nat)).

(** [r'(\d{1,2})\.?/?\.?\s*(\d{1,2})?\.?\s*(\w+)\s+(\d{4})'] *)
Definition month_name_re : regex :=
  Group 1 (Rep Digit 1 (Some 2%nat)) +>
  maybe (Lit (chr ".")) +> maybe (Lit (chr "/")) +> maybe (Lit (chr ".")) +>
  star Space +>
  Opt (Group 2 (Rep Digit 1 (Some 2%nat))) +>
  maybe (Lit (chr ".")) +> star Space +>
  Group 3 (plus Word) +> plus Space +>
  Group 4 (Rep Digit 4 (Some 4%nat)).

(* ================================================================== *)
(** ** [int], [datetime] and the month table *)
(* ================================================================== *)

(** [int(x)] as the program uses it: on [None] a [TypeError]; on a
    non-empty run of decimal digits its value.  ([int] also accepts signs,
    blanks and underscores; such text never reaches it here, and the model
    raises [ValueError] on it like on any other text.) *)
Definition py_int {U : UnicodeDB} (x : option str) : result Z :=
  match x with
  | None => Raise TypeError
  | Some s =>
      match s with
      | [] => Raise ValueError
      | _ :: _ =>
          if forallb Py_UNICODE_ISDECIMAL s
          then Ok (fold_left (fun acc c => 10 * acc + Py_UNICODE_TODECIMAL c) s 0)
          else Raise ValueError
      end
  end.

(** [x.lower()]: on [None] an [AttributeError]. *)
Definition py_lower {U : UnicodeDB} (x : option str) : result str :=
  match x with
  | None => Raise AttributeError
  | Some s => Ok (str_lower s)
  end.

Record datetime := mkDatetime {
  year : Z; month : Z; day : Z;
  hour : Z; minute : Z; second : Z; microsecond : Z
}.

Definition is_leap (y : Z) : bool :=
  (y mod 4 =? 0) && (negb (y mod 100 =? 0) || (y mod 400 =? 0)).

Definition days_in_month (y m : Z) : Z :=
  match m with
  | 1 | 3 | 5 | 7 | 8 | 10 | 12 => 31
  | 4 | 6 | 9 | 11 => 30
  | 2 => if is_leap y then 29 else 28
  | _ => 0
  end.

(** A day of the calendar [datetime] accepts: years 1 to 9999. *)
Definition valid_date (y m d : Z) : bool :=
  (1 <=? y) && (y <=? 9999) && (1 <=? m) && (m <=? 12)
  && (1 <=? d) && (d <=? days_in_month y m).

(** [datetime(y, m, d)]: midnight of that day, or [ValueError]. *)
Definition datetime_new (y m d : Z) : result datetime :=
  if valid_date y m d then Ok (mkDatetime y m d 0 0 0 0) else Raise ValueError.

(** [datetime.max] *)
Definition datetime_max : datetime := mkDatetime 9999 12 31 23 59 59 999999.

Definition datetime_fields (d : datetime) : list Z :=
  [year d; month d; day d; hour d; minute d; second d; microsecond d].

Fixpoint lex_ltb (a b : list Z) : bool :=
  match a, b with
  | x :: a', y :: b' => (x <? y) || ((x =? y) && lex_ltb a' b')
  | [], _ :: _ => true
  | _, [] => false
  end.

(** [d1 < d2] on naive datetimes. *)
Definition datetime_ltb (d1 d2 : datetime) : bool :=
  lex_ltb (datetime_fields d1) (datetime_fields d2).

Definition a_umlaut : N := 228.

Definition month_map : list (str * Z) :=
  [ (py "januar", 1); (py "january", 1); (py "jan", 1);
    (py "februar", 2); (py "february", 2); (py "feb", 2);
    (py "m" ++ a_umlaut :: py "rz", 3); (py "march", 3); (py "mar", 3);
    (py "april", 4); (py "apr", 4);
    (py "mai", 5); (py "may", 5);
    (py "juni", 6); (py "june", 6); (py "jun", 6);
    (py "juli", 7); (py "july", 7); (py "jul", 7);
    (py "august", 8); (py "aug", 8);
    (py "september", 9); (py "sep", 9); (py "sept", 9);
    (py "oktober", 10); (py "october", 10); (py "oct", 10);
    (py "november", 11); (py "nov", 11);
    (py "dezember", 12); (py "december", 12); (py "dec", 12) ].

Fixpoint month_lookup (name : str) (table : list (str * Z)) : option Z :=
  match table with
  | [] => None
  | (k, v) :: table' =>
      if str_eq_dec name k then Some v else month_lookup name table'
  end.

(* ================================================================== *)
(** ** [parse_date] (lines 76-115) *)
(* ================================================================== *)

Definition is_empty (s : str) : bool :=
  match s with [] => true | _ :: _ => false end.

(** Each of the two attempts gives [Some d] where the source returns [d] and
    [None] where control falls through to the code below it. *)
Definition try_numeric {U : UnicodeDB} (s : str) : result (option datetime) :=
  match re_match numeric_re s with
  | Some m =>
      try_except_ValueError
        (y <- py_int (group m 3) ;;
         mo <- py_int (group m 2) ;;
         d <- py_int (group m 1) ;;
         dt <- datetime_new y mo d ;;
         Ok (Some dt))
        (Ok None)
  | None => Ok None
  end.

Definition try_month_name {U : UnicodeDB} (s : str) : result (option datetime) :=
  match re_match month_name_re s with
  | Some m =>
      d <- py_int (group m 1) ;;
      month_name <- py_lower (group m 3) ;;
      y <- py_int (group m 4) ;;
      match month_lookup month_name month_map with
      | Some mo =>
          try_except_ValueError
            (dt <- datetime_new y mo d ;; Ok (Some dt))
            (Ok None)
      | None => Ok None
      end
  | None => Ok None
  end.

Definition parse_date {U : UnicodeDB} (date_str : cell) : result (option datetime) :=
  match date_str with
  | None => Ok None
  | Some s =>
      if is_empty s || cell_eqb date_str See_details then Ok None else
      first <- try_numeric s ;;
      match first with
      | Some dt => Ok (Some dt)
      | None => try_month_name s
      end
  end.

(* ================================================================== *)
(** ** [sort_key] and [sorted] (lines 117-123) *)
(* ================================================================== *)

Definition sort_key {U : UnicodeDB} (ev : event) : result (Z * datetime) :=
  parsed <- parse_date (date ev) ;;
  match parsed with
  | None => Ok (1, datetime_max)
  | Some d => Ok (0, d)
  end.

(** [<] on the key tuples: the first components decide unless equal. *)
Definition key_ltb (a b : Z * datetime) : bool :=
  if fst a =? fst b then datetime_ltb (snd a) (snd b) else fst a <? fst b.

Section Sorted.
Context {K A : Type} (ltb : K -> K -> bool).

Fixpoint insert (x : K * A) (l : list (K * A)) : list (K * A) :=
  match l with
  | [] => [x]
  | y :: l' => if ltb (fst y) (fst x) then y :: insert x l' else x :: l
  end.

(** [sorted(l, key=key)]: the keys are computed once, in order (an
    exception of [key] leaves [sorted]); the sort is stable, and a stable
    sort has one possible outcome, the one straight insertion gives. *)
Definition py_sorted (key : A -> result K) (l : list A) : result (list A) :=
  keys <- mapM key l ;;
  Ok (map snd (fold_right insert [] (combine keys l))).
End Sorted.

Definition sorted_events {U : UnicodeDB} (existing_events : pydict)
  : result (list event) :=
  py_sorted key_ltb sort_key (dict_values existing_events).

(** The run up to the rows handed to the writer, with the two counts of the
    log line. *)
Definition save_to_excel {U : UnicodeDB} (events : list event) (file : workbook)
  : result (list event * Z * Z) :=
  let st := reconcile (load_existing file) events in
  out <- sorted_events (merged st) ;;
  Ok (out, new_count st, updated_count st).

(* ================================================================== *)
(** ** Notions used by the statements *)
(* ================================================================== *)

(** What one loop iteration does to the binding of a fixed key [k]. *)
Definition step_at (k : key) (x : option event) (ev : event) : option event :=
  if key_eq_dec (key_of ev) k
  then Some (match x with None => ev | Some existing => enrich existing ev end)
  else x.

(** The value a guarded write leaves in a field. *)
Definition pick (stored incoming : cell) : cell :=
  if improves stored incoming then incoming else stored.

(** Two values of one field do not contradict each other: one of them is
    the placeholder, or they are the same. *)
Definition agree (a b : cell) : Prop :=
  a = See_details \/ b = See_details \/ a = b.

(** Two incoming records that name the same event agree on both fields. *)
Definition compatible (e1 e2 : event) : Prop :=
  key_of e1 = key_of e2 ->
  agree (date e1) (date e2) /\ agree (location e1) (location e2).

Definition conflict_free (events : list event) : Prop :=
  forall e1 e2, In e1 events -> In e2 events -> compatible e1 e2.

(** The mapping already knows everything [ev] has to offer. *)
Definition absorbed (d : pydict) (ev : event) : Prop :=
  exists r, dict_get (key_of ev) d = Some r
            /\ (date r = See_details -> date ev = See_details)
            /\ (location r = See_details -> location ev = See_details).

(** Every record is filed under its own identity key. *)
Definition keyed (d : pydict) : Prop :=
  Forall (fun kv => key_of (snd kv) = fst kv) d.

(** A non-empty run of the ASCII digits, and the number it writes. *)
Definition is_digits (ds : str) : bool :=
  negb (is_empty ds) && forallb latin1_isdecimal ds.

Definition decimal (ds : str) : Z :=
  fold_left (fun acc c => 10 * acc + latin1_todecimal c) ds 0.

(** [datetime(y, m, d)] when it is a day of the calendar. *)
Definition midnight (y m d : Z) : datetime := mkDatetime y m d 0 0 0 0.

(** The first match of a pattern, with the text it leaves. *)
Definition first_match {U : UnicodeDB} (r : regex) (s : str) (g : groups)
  : option (groups * str) := hd_error (exec r s g).

(** The text after a run cannot extend it. *)
Definition blocked (p : N -> bool) (rest : str) : Prop :=
  match rest with [] => True | c :: _ => p c = false end.

(** No character of the text is white space. *)
Definition spaceless {U : UnicodeDB} (s : str) : Prop :=
  Forall (fun c => Py_UNICODE_ISSPACE c = false) s.

(** The letters the keys of [month_map] are written with. *)
Definition month_letter (c : N) : bool := in_range 97 122 c || (c =? a_umlaut)%N.

(** A day-range text from its second day on: the day, ". ", the month
    name, a blank, the year and whatever follows. *)
Definition after_separator (d2 name y rest : str) : str :=
  d2 ++ chr "." :: chr " " :: name ++ chr " " :: y ++ rest.

(** Straight insertion on the records themselves, by a key that cannot
    fail; [py_sorted] computes the same list when its key never raises. *)
Section SortBy.
Context {K A : Type} (ltb : K -> K -> bool) (g : A -> K).

Fixpoint insert_by (x : A) (l : list A) : list A :=
  match l with
  | [] => [x]
  | y :: l' => if ltb (g y) (g x) then y :: insert_by x l' else x :: l
  end.

Definition sort_by (l : list A) : list A := fold_right insert_by [] l.

(** [a] may stand in front of [b]: [b] is not less than [a]. *)
Definition in_order (a b : A) : Prop := ltb (g b) (g a) = false.
End SortBy.

(** What [parse_date] makes of the date of a record. *)
Definition parsed_date {U : UnicodeDB} (ev : event) : option datetime :=
  match parse_date (date ev) with
  | Ok r => r
  | Raise _ => None
  end.

Definition has_date {U : UnicodeDB} (ev : event) : bool :=
  match parsed_date ev with Some _ => true | None => false end.

Definition no_date {U : UnicodeDB} (ev : event) : bool := negb (has_date ev).

Definition event_key {U : UnicodeDB} (ev : event) : Z * datetime :=
  match parsed_date ev with
  | None => (1, datetime_max)
  | Some d => (0, d)
  end.

(** Both records have a date and the first is not after the second. *)
Definition not_later {U : UnicodeDB} (a b : event) : Prop :=
  exists da db, parsed_date a = Some da /\ parsed_date b = Some db
                /\ datetime_ltb db da = false.

Definition sort_key_eq_dec (a b : Z * datetime) : {a = b} + {a <> b}.
Proof. repeat decide equality. Defined.

(** The record sorts under the key [k]. *)
Definition has_key {U : UnicodeDB} (k : Z * datetime) (ev : event) : bool :=
  if sort_key_eq_dec (event_key ev) k then true else false.

Definition key_fields (k : Z * datetime) : list Z :=
  fst k :: datetime_fields (snd k).

(* ================================================================== *)
(** ** Sample records *)
(* ================================================================== *)

Definition text (s : string) : cell := Some (py s).

Definition header_row : row :=
  [text "Title"; text "Date"; text "Location"; text "URL"; text "Source"].

(** The record of the end-to-end scenario, with a given date and place. *)
Definition kongress (d l : cell) : event :=
  mkEvent (text "Kongress A") d l (text "https://x/a") (text "X").

Definition kongress_key : key :=
  (text "Kongress A", text "https://x/a", text "X").

Definition kongress_21 : event := kongress (text "21. April 2026") See_details.
Definition kongress_22 : event := kongress (text "22. April 2026") See_details.
Definition kongress_berlin : event := kongress See_details (text "Berlin").
Definition kongress_unknown : event := kongress See_details See_details.

(* ================================================================== *)
(** ** The record of a row, and [main] (lines 35-44, 161-256) *)
(* ================================================================== *)

(** What lines 35-44 read from one row that has five cells and a first
    cell that is not [None]: the record filed under its key. *)
Definition record_of (r : row) : option event :=
  match r with
  | [Some t; da; lo; ur; so] => Some (mkEvent (Some t) da lo ur so)
  | _ => None
  end.

(** What one [try: ... except Exception] block of [main] gets from its
    adapter: the list it returned, or nothing when it raised. *)
Inductive outcome :=
| Returned (batch : list event)
| Failed.

(** [all_events] after the blocks, in their order. *)
Definition gather (adapters : list outcome) : list event :=
  flat_map (fun o => match o with Returned batch => batch | Failed => [] end)
           adapters.

Definition main {U : UnicodeDB} (adapters : list outcome) (file : workbook)
  : result (list event * Z * Z) :=
  save_to_excel (gather adapters) file.

(* ================================================================== *)
(** ** Deduplication in the adapters *)
(* ================================================================== *)

(** The loop of [builtworld.py] (lines 136-141, on ['url']) and of
    [i2fm.py] (lines 123-129, on ['title']): [seen] is the set, [unique]
    the list appended to. *)
Fixpoint dedup_loop (field : event -> cell) (events : list event)
    (seen : list cell) (unique : list event) : list event :=
  match events with
  | [] => unique
  | ev :: rest =>
      if in_dec cell_eq_dec (field ev) seen
      then dedup_loop field rest seen unique
      else dedup_loop field rest (field ev :: seen) (unique ++ [ev])
  end.

Definition dedup_by (field : event -> cell) (events : list event) : list event :=
  dedup_loop field events [] [].

(* ================================================================== *)
(** ** The detail pages of [i2fm.py] (lines 129-137) *)
(* ================================================================== *)

(** The dict [fetch_event_details] returns: the keys ['date'] and
    ['location'] are there when the page gave them; the function catches
    its own exceptions. *)
Record details := mkDetails {
  found_date : option str;
  found_location : option str
}.

(** Truth value of a cell holding a string or nothing. *)
Definition truthy (c : cell) : bool :=
  match c with
  | Some (_ :: _) => true
  | _ => false
  end.

(** The two [if ... in details] writes. *)
Definition apply_details (dt : details) (ev : event) : event :=
  let ev1 := match found_date dt with
             | Some d => set_date ev (Some d)
             | None => ev
             end in
  match found_location dt with
  | Some l => set_location ev1 (Some l)
  | None => ev1
  end.

(** One iteration; [responses i] is what the page of the [i]-th record
    answers. *)
Definition look_up (responses : nat -> details) (i : nat) (ev : event) : event :=
  if truthy (url ev) && cell_eqb (date ev) See_details
  then apply_details (responses i) ev
  else ev.

Fixpoint look_up_from (responses : nat -> details) (i : nat)
    (events : list event) : list event :=
  match events with
  | [] => []
  | ev :: rest => look_up responses i ev :: look_up_from responses (S i) rest
  end.

(** [for event in events[:10]: ...]: the slice holds the same dicts, so
    the writes show in [events]. *)
Definition fetch_details (responses : nat -> details) (events : list event)
  : list event :=
  look_up_from responses 0 (firstn 10 events) ++ skipn 10 events.

(** Lines 120-137: what [scrape_i2fm_events] returns once the links are
    collected. *)
Definition i2fm_batch (responses : nat -> details) (events : list event)
  : list event :=
  fetch_details responses (dedup_by title events).

(* ================================================================== *)
(** ** Further notions used by the statements *)
(* ================================================================== *)

Definition key_eqb (a b : key) : bool :=
  if key_eq_dec a b then true else false.

(** The first value of a field that is not the placeholder. *)
Fixpoint first_known (vs : list cell) : cell :=
  match vs with
  | [] => See_details
  | v :: vs' => if cell_eqb v See_details then first_known vs' else v
  end.

(** The records that speak for a key, oldest first: the stored one, then
    the incoming ones of that key. *)
Definition candidates (k : key) (stored : option event) (events : list event)
  : list event :=
  match stored with Some r => [r] | None => [] end
  ++ filter (fun ev => key_eqb (key_of ev) k) events.

(** The record they settle on. *)
Definition settled (cands : list event) : option event :=
  match cands with
  | [] => None
  | r0 :: _ =>
      Some (mkEvent (title r0) (first_known (map date cands))
                    (first_known (map location cands)) (url r0) (source r0))
  end.

(** The members of [l] not in [seen], each once, in the order they first
    appear. *)
Fixpoint distinct_from {A} (eq_dec : forall a b : A, {a = b} + {a <> b})
    (seen l : list A) : list A :=
  match l with
  | [] => []
  | a :: l' =>
      if in_dec eq_dec a seen then distinct_from eq_dec seen l'
      else a :: distinct_from eq_dec (seen ++ [a]) l'
  end.

(** The first record of a list with a given value of a field. *)
Definition first_with (field : event -> cell) (v : cell) (l : list event)
  : option event :=
  find (fun ev => cell_eqb (field ev) v) l.

(** The last row of a key, as the record it is read into. *)
Definition last_of_key (k : key) (evs : list event) : option event :=
  find (fun ev => key_eqb (key_of ev) k) (rev evs).

(** Somewhere in the text a character passing [p1] is followed at once by
    one passing [p2]. *)
Fixpoint has_pair (p1 p2 : N -> bool) (s : str) : bool :=
  match s with
  | c :: (d :: _) as tl => (p1 c && p2 d) || has_pair p1 p2 tl
  | _ => false
  end.

(** A character neither pattern can take. *)
Definition foreign {U : UnicodeDB} (c : N) : bool :=
  negb (Py_UNICODE_ISDECIMAL c) && negb (atom_matches Word c)
  && negb (Py_UNICODE_ISSPACE c)
  && negb (c =? chr ".")%N && negb (c =? chr "/")%N.

(** What the month-name pattern can take. *)
Definition month_name_char {U : UnicodeDB} (c : N) : bool :=
  Py_UNICODE_ISDECIMAL c || atom_matches Word c || Py_UNICODE_ISSPACE c
  || (c =? chr ".")%N || (c =? chr "/")%N.

(** ZERO WIDTH SPACE, which [facility_manager.py] writes after "./". *)
Definition zero_width_space : N := 8203.

(** A non-empty word of Latin-1 letters and letter-like signs: word
    characters that are no digits. *)
Definition is_letters (name : str) : bool :=
  negb (is_empty name)
  && forallb (fun c => (c <? 256)%N && latin1_isalnum c
                       && negb (latin1_isdecimal c)) name.

(** Three dicts in memory: a stored record without date or place, an
    incoming one with a date, an incoming one with a place. *)
Definition sample_heap : heap :=
  fun a => match a with
           | O => kongress_unknown
           | S O => kongress_21
           | _ => kongress_berlin
           end.

(* ================================================================== *)
(** ** Facts about the mapping *)
(* ================================================================== *)

Lemma dict_get_set_same {V} k (v : V) d : dict_get k (dict_set k v d) = Some v.
Proof.
  induction d as [|[k' v'] d IH]; simpl.
  - destruct (key_eq_dec k k); congruence.
  - destruct (key_eq_dec k k') as [E|E]; simpl.
    + destruct (key_eq_dec k k'); congruence.
    + destruct (key_eq_dec k k'); congruence.
Qed.

Lemma dict_get_set_other {V} k k' (v : V) d :
  k <> k' -> dict_get k' (dict_set k v d) = dict_get k' d.
Proof.
  intros N. induction d as [|[k0 v0] d IH]; simpl.
  - destruct (key_eq_dec k' k); congruence.
  - destruct (key_eq_dec k k0) as [E|E]; simpl.
    + subst k0. destruct (key_eq_dec k' k); congruence.
    + destruct (key_eq_dec k' k0); congruence.
Qed.

Lemma dict_set_get_id {V} k (v : V) d : dict_get k d = Some v -> dict_set k v d = d.
Proof.
  induction d as [|[k' v'] d IH]; simpl; [discriminate|].
  destruct (key_eq_dec k k') as [E|E]; intros H.
  - congruence.
  - rewrite IH; auto.
Qed.

Lemma dict_get_None_keys {V} k (d : dict V) :
  dict_get k d = None <-> ~ In k (dict_keys d).
Proof.
  induction d as [|[k' v'] d IH]; simpl.
  - tauto.
  - destruct (key_eq_dec k k') as [E|E].
    + split; [discriminate|]. intros H. exfalso. apply H. left. congruence.
    + rewrite IH. split; intros H; [intros [F|F]; [congruence|tauto]|tauto].
Qed.

Lemma dict_keys_set_present {V} k (v : V) d r :
  dict_get k d = Some r -> dict_keys (dict_set k v d) = dict_keys d.
Proof.
  induction d as [|[k' v'] d IH]; simpl; [discriminate|].
  destruct (key_eq_dec k k') as [E|E]; simpl; intros H.
  - reflexivity.
  - f_equal. auto.
Qed.

Lemma dict_keys_set_absent {V} k (v : V) d :
  dict_get k d = None -> dict_keys (dict_set k v d) = dict_keys d ++ [k].
Proof.
  induction d as [|[k' v'] d IH]; simpl; [reflexivity|].
  destruct (key_eq_dec k k') as [E|E]; simpl; intros H.
  - discriminate.
  - f_equal. auto.
Qed.

Lemma dict_get_In {V} k (v : V) d : dict_get k d = Some v -> In (k, v) d.
Proof.
  induction d as [|[k' v'] d IH]; simpl; [discriminate|].
  destruct (key_eq_dec k k') as [E|E]; intros H.
  - left. congruence.
  - right. auto.
Qed.

Lemma In_dict_get {V} k (v : V) d :
  NoDup (dict_keys d) -> In (k, v) d -> dict_get k d = Some v.
Proof.
  induction d as [|[k' v'] d IH]; simpl; [tauto|].
  intros ND [H|H].
  - inversion H; subst. destruct (key_eq_dec k k); congruence.
  - inversion ND as [|? ? Hn ND']; subst.
    destruct (key_eq_dec k k') as [E|E].
    + subst. exfalso. apply Hn. change k' with (fst (k', v)). now apply in_map.
    + auto.
Qed.

Lemma NoDup_keys_NoDup {V} (d : dict V) : NoDup (dict_keys d) -> NoDup d.
Proof.
  induction d as [|[k v] d IH]; simpl; intros ND; [constructor|].
  inversion ND as [|? ? Hn ND']; subst. constructor; auto.
  intros H. apply Hn. change k with (fst (k, v)). now apply in_map.
Qed.

(** Two mappings with the same lookups hold the same bindings. *)
Lemma same_lookups_Permutation {V} (d1 d2 : dict V) :
  NoDup (dict_keys d1) -> NoDup (dict_keys d2) ->
  (forall k, dict_get k d1 = dict_get k d2) -> Permutation d1 d2.
Proof.
  intros N1 N2 H. apply NoDup_Permutation; auto using NoDup_keys_NoDup.
  intros [k v]. split; intros I.
  - apply dict_get_In. rewrite <- H. now apply In_dict_get.
  - apply dict_get_In. rewrite H. now apply In_dict_get.
Qed.

(* ================================================================== *)
(** ** Facts about one merge step *)
(* ================================================================== *)

Lemma cell_eqb_eq a b : cell_eqb a b = true <-> a = b.
Proof. unfold cell_eqb. destruct (cell_eq_dec a b); split; congruence. Qed.

Lemma improves_true a b :
  improves a b = true <-> a = See_details /\ b <> See_details.
Proof.
  unfold improves, cell_eqb.
  destruct (cell_eq_dec a See_details), (cell_eq_dec b See_details);
    simpl; split; intros H; try discriminate; try tauto.
Qed.

Lemma pick_kept a b : a <> See_details -> pick a b = a.
Proof.
  intros H. unfold pick. destruct (improves a b) eqn:E; auto.
  apply improves_true in E. tauto.
Qed.

Lemma pick_placeholder b : pick See_details b = b.
Proof.
  unfold pick. destruct (improves See_details b) eqn:E; auto.
  destruct (cell_eq_dec b See_details) as [F|F]; [congruence|].
  assert (improves See_details b = true) by (apply improves_true; auto).
  congruence.
Qed.

Lemma pick_not_placeholder a b : pick a b = See_details -> a = See_details /\ b = See_details.
Proof.
  destruct (cell_eq_dec a See_details) as [E|E].
  - subst. rewrite pick_placeholder. auto.
  - rewrite pick_kept; tauto.
Qed.

Lemma enrich_fields r e :
  title (enrich r e) = title r /\ url (enrich r e) = url r
  /\ source (enrich r e) = source r
  /\ date (enrich r e) = pick (date r) (date e)
  /\ location (enrich r e) = pick (location r) (location e).
Proof.
  unfold enrich, pick.
  destruct (improves (date r) (date e)); simpl;
    destruct (improves (location r) (location e)); simpl; auto.
Qed.

Lemma enrich_date r e : date (enrich r e) = pick (date r) (date e).
Proof. apply enrich_fields. Qed.

Lemma enrich_location r e : location (enrich r e) = pick (location r) (location e).
Proof. apply enrich_fields. Qed.

Lemma enrich_title r e : title (enrich r e) = title r.
Proof. apply enrich_fields. Qed.

Lemma enrich_url r e : url (enrich r e) = url r.
Proof. apply enrich_fields. Qed.

Lemma enrich_source r e : source (enrich r e) = source r.
Proof. apply enrich_fields. Qed.

Lemma enrich_key r e : key_of (enrich r e) = key_of r.
Proof.
  unfold key_of. now rewrite enrich_title, enrich_url, enrich_source.
Qed.

Lemma event_ext (a b : event) :
  title a = title b -> date a = date b -> location a = location b ->
  url a = url b -> source a = source b -> a = b.
Proof. destruct a, b; simpl; congruence. Qed.

Lemma enrich_noop r e :
  improves (date r) (date e) = false ->
  improves (location r) (location e) = false -> enrich r e = r.
Proof. unfold enrich. intros -> ->. reflexivity. Qed.

Lemma merge_event_get k st ev :
  dict_get k (merged (merge_event st ev)) = step_at k (dict_get k (merged st)) ev.
Proof.
  destruct st as [[d n] u]. unfold merge_event, step_at, merged.
  cbn [fst snd].
  destruct (key_eq_dec (key_of ev) k) as [E|E].
  - subst k. destruct (dict_get (key_of ev) d); cbn [fst]; apply dict_get_set_same.
  - destruct (dict_get (key_of ev) d); cbn [fst]; now apply dict_get_set_other.
Qed.

Lemma merge_loop_get k events : forall st,
  dict_get k (merged (merge_loop st events))
  = fold_left (step_at k) events (dict_get k (merged st)).
Proof.
  unfold merge_loop.
  induction events as [|e events IH]; intros st; simpl; [reflexivity|].
  rewrite IH, merge_event_get. reflexivity.
Qed.

Lemma merge_loop_app st l1 l2 :
  merge_loop st (l1 ++ l2) = merge_loop (merge_loop st l1) l2.
Proof. unfold merge_loop. apply fold_left_app. Qed.

Lemma pick_placeholder_r c : pick c See_details = c.
Proof.
  unfold pick. destruct (improves c See_details) eqn:E; auto.
  apply improves_true in E. tauto.
Qed.

Lemma pick_comm b c : agree b c -> pick b c = pick c b.
Proof.
  intros [H|[H|H]]; subst;
    rewrite ?pick_placeholder, ?pick_placeholder_r; auto.
Qed.

Lemma pick_swap a b c : agree b c -> pick (pick a b) c = pick (pick a c) b.
Proof.
  intros H. destruct (cell_eq_dec a See_details) as [E|E].
  - subst. rewrite !pick_placeholder. now apply pick_comm.
  - rewrite !(pick_kept a) by assumption. reflexivity.
Qed.

Lemma step_at_swap k x e1 e2 :
  compatible e1 e2 ->
  step_at k (step_at k x e1) e2 = step_at k (step_at k x e2) e1.
Proof.
  intros C. unfold step_at.
  destruct (key_eq_dec (key_of e1) k) as [E1|E1];
    destruct (key_eq_dec (key_of e2) k) as [E2|E2]; try reflexivity.
  assert (K : key_of e1 = key_of e2) by congruence.
  destruct (C K) as [Cd Cl]. unfold key_of in K. injection K as Kt Ku Ks.
  f_equal. destruct x as [r|];
    apply event_ext;
    rewrite ?enrich_date, ?enrich_location, ?enrich_title, ?enrich_url,
      ?enrich_source;
    auto using pick_swap, pick_comm.
Qed.

Lemma conflict_free_cons e l : conflict_free (e :: l) -> conflict_free l.
Proof. intros H a b Ia Ib. apply H; now right. Qed.

Lemma conflict_free_Permutation l l' :
  Permutation l l' -> conflict_free l -> conflict_free l'.
Proof.
  intros P H a b Ia Ib. apply Permutation_sym in P.
  apply H; apply (Permutation_in _ P); assumption.
Qed.

Lemma fold_step_at_Permutation k l l' :
  Permutation l l' -> conflict_free l ->
  forall x, fold_left (step_at k) l x = fold_left (step_at k) l' x.
Proof.
  induction 1 as [|e l l' P IH|e1 e2 l|l l' l'' P1 IH1 P2 IH2]; intros C x; simpl.
  - reflexivity.
  - apply IH. eapply conflict_free_cons; eauto.
  - f_equal. apply step_at_swap. apply C; simpl; auto.
  - rewrite IH1 by assumption. apply IH2.
    eapply conflict_free_Permutation; eauto.
Qed.

(* ================================================================== *)
(** ** Size and shape of the merged mapping *)
(* ================================================================== *)

Lemma merge_event_keys st ev :
  (dict_get (key_of ev) (merged st) = None
   /\ dict_keys (merged (merge_event st ev)) = dict_keys (merged st) ++ [key_of ev]
   /\ new_count (merge_event st ev) = new_count st + 1)
  \/ (dict_get (key_of ev) (merged st) <> None
      /\ dict_keys (merged (merge_event st ev)) = dict_keys (merged st)
      /\ new_count (merge_event st ev) = new_count st).
Proof.
  destruct st as [[d n] u]. unfold merge_event, merged, new_count. cbn [fst snd].
  destruct (dict_get (key_of ev) d) as [r|] eqn:G; cbn [fst snd].
  - right. repeat split; [discriminate|]. eapply dict_keys_set_present; eauto.
  - left. repeat split. now apply dict_keys_set_absent.
Qed.

Lemma keyed_set k v d : keyed d -> key_of v = k -> keyed (dict_set k v d).
Proof.
  unfold keyed. intros H E.
  induction d as [|[k' v'] d IH]; simpl.
  - constructor; auto.
  - inversion H; subst. destruct (key_eq_dec (key_of v) k'); constructor; auto.
Qed.

Lemma keyed_get k r d : keyed d -> dict_get k d = Some r -> key_of r = k.
Proof.
  intros H G. apply dict_get_In in G. unfold keyed in H.
  rewrite Forall_forall in H. apply (H (k, r) G).
Qed.

Lemma merge_event_keyed st ev : keyed (merged st) -> keyed (merged (merge_event st ev)).
Proof.
  destruct st as [[d n] u]. unfold merge_event, merged. cbn [fst snd]. intros H.
  destruct (dict_get (key_of ev) d) as [r|] eqn:G; cbn [fst snd].
  - apply keyed_set; auto. rewrite enrich_key. eapply keyed_get; eauto.
  - apply keyed_set; auto.
Qed.

Lemma merge_loop_shape events : forall st,
  NoDup (dict_keys (merged st)) ->
  let st' := merge_loop st events in
  Z.of_nat (List.length (merged st')) - new_count st'
    = Z.of_nat (List.length (merged st)) - new_count st
  /\ NoDup (dict_keys (merged st'))
  /\ incl (dict_keys (merged st)) (dict_keys (merged st'))
  /\ (keyed (merged st) -> keyed (merged st')).
Proof.
  unfold merge_loop.
  induction events as [|e events IH]; intros st ND; simpl.
  - repeat split; auto using incl_refl.
  - assert (L : forall s : merge_state,
               List.length (merged s) = List.length (dict_keys (merged s)))
      by (intros; unfold dict_keys; now rewrite length_map).
    destruct (merge_event_keys st e) as [(G & K & C)|(G & K & C)].
    + assert (ND' : NoDup (dict_keys (merged (merge_event st e)))).
      { rewrite K. apply NoDup_app; [assumption|repeat constructor; simpl; tauto|].
        intros a Ia [Ib|[]]. subst. now apply dict_get_None_keys in G. }
      destruct (IH _ ND') as (I1 & I2 & I3 & I4). repeat split; auto.
      * rewrite I1, C, !L, K, length_app. simpl. lia.
      * intros a Ia. apply I3. rewrite K. apply in_or_app. now left.
      * intros Hk. apply I4. now apply merge_event_keyed.
    + assert (ND' : NoDup (dict_keys (merged (merge_event st e))))
        by now rewrite K.
      destruct (IH _ ND') as (I1 & I2 & I3 & I4). repeat split; auto.
      * rewrite I1, C, !L, K. reflexivity.
      * intros a Ia. apply I3. now rewrite K.
      * intros Hk. apply I4. now apply merge_event_keyed.
Qed.

(* ================================================================== *)
(** ** A second run with the same batch *)
(* ================================================================== *)

Lemma absorbed_after_step st e : absorbed (merged (merge_event st e)) e.
Proof.
  unfold absorbed. rewrite merge_event_get. unfold step_at.
  destruct (key_eq_dec (key_of e) (key_of e)) as [_|N]; [|congruence].
  destruct (dict_get (key_of e) (merged st)) as [r|].
  - exists (enrich r e). rewrite enrich_date, enrich_location.
    repeat split; intros H; now apply pick_not_placeholder in H.
  - exists e. auto.
Qed.

Lemma absorbed_preserved st e e' :
  absorbed (merged st) e -> absorbed (merged (merge_event st e')) e.
Proof.
  intros (r & G & Hd & Hl). unfold absorbed.
  rewrite merge_event_get, G. unfold step_at.
  destruct (key_eq_dec (key_of e') (key_of e)).
  - exists (enrich r e'). rewrite enrich_date, enrich_location.
    repeat split; intros H; apply pick_not_placeholder in H; tauto.
  - exists r. auto.
Qed.

Lemma absorbed_by_loop events : forall st e,
  absorbed (merged st) e \/ In e events ->
  absorbed (merged (merge_loop st events)) e.
Proof.
  unfold merge_loop.
  induction events as [|e' events IH]; intros st e H; simpl.
  - destruct H as [H|[]]. exact H.
  - apply IH. destruct H as [H|[H|H]].
    + left. now apply absorbed_preserved.
    + subst. left. apply absorbed_after_step.
    + now right.
Qed.

Lemma merge_event_absorbed st e : absorbed (merged st) e -> merge_event st e = st.
Proof.
  destruct st as [[d n] u]. unfold merged. cbn [fst].
  intros (r & G & Hd & Hl). unfold merge_event. rewrite G.
  assert (Fd : improves (date r) (date e) = false).
  { destruct (improves (date r) (date e)) eqn:E; auto.
    apply improves_true in E. tauto. }
  assert (Fl : improves (location r) (location e) = false).
  { destruct (improves (location r) (location e)) eqn:E; auto.
    apply improves_true in E. tauto. }
  unfold updated_flag. rewrite Fd, Fl, enrich_noop by assumption. simpl.
  now rewrite dict_set_get_id.
Qed.

Lemma merge_loop_absorbed events : forall st,
  Forall (absorbed (merged st)) events -> merge_loop st events = st.
Proof.
  unfold merge_loop.
  induction events as [|e events IH]; intros st H; simpl; [reflexivity|].
  inversion H; subst. rewrite merge_event_absorbed by assumption. now apply IH.
Qed.

(** C3.  Idempotence: for every persisted mapping [P] and batch [I], merging
    [I] a second time into the outcome of merging [I] into [P] leaves the
    mapping as it is and counts no new and no updated record. *)
Theorem reconcile_idempotent (P : pydict) (I : list event) :
  reconcile (merged (reconcile P I)) I = (merged (reconcile P I), 0, 0).
Proof.
  unfold reconcile at 1. apply merge_loop_absorbed.
  apply Forall_forall. intros e He. unfold merged at 1. cbn [fst].
  apply absorbed_by_loop. now right.
Qed.

(* ================================================================== *)
(** ** Enriched fields stay *)
(* ================================================================== *)

Lemma step_at_keeps k r ev :
  exists r', step_at k (Some r) ev = Some r'
             /\ (date r <> See_details -> date r' = date r)
             /\ (location r <> See_details -> location r' = location r).
Proof.
  unfold step_at. destruct (key_eq_dec (key_of ev) k).
  - exists (enrich r ev). rewrite enrich_date, enrich_location.
    repeat split; intros H; now apply pick_kept.
  - exists r. auto.
Qed.

(** C4.  Monotonic enrichment: once the stored [date] (respectively
    [location]) of a key is not the placeholder, no sequence of later merge
    steps changes it, whatever the incoming records carry for that key, so
    it never goes back to the placeholder either; each of the two fields on
    its own. *)
Theorem enriched_field_is_final (st : merge_state) (events : list event)
    (k : key) (r : event) :
  dict_get k (merged st) = Some r ->
  exists r', dict_get k (merged (merge_loop st events)) = Some r'
    /\ (date r <> See_details ->
        date r' = date r /\ date r' <> See_details)
    /\ (location r <> See_details ->
        location r' = location r /\ location r' <> See_details).
Proof.
  rewrite merge_loop_get. generalize (dict_get k (merged st)). intros x Hx.
  subst x. revert r.
  induction events as [|e events IH]; intros r; simpl.
  - exists r. repeat split; auto.
  - destruct (step_at_keeps k r e) as (r1 & -> & Hd & Hl).
    destruct (IH r1) as (r' & G & Hd' & Hl'). exists r'. split; [exact G|].
    split; intros H.
    + specialize (Hd H). destruct Hd' as [A B]; [congruence|].
      split; congruence.
    + specialize (Hl H). destruct Hl' as [A B]; [congruence|].
      split; congruence.
Qed.

(* ================================================================== *)
(** ** Size of the mapping and order of the batch *)
(* ================================================================== *)

(** C9.  Size invariant: for a persisted mapping with unique keys, the
    merged mapping has as many records as the persisted one plus
    [new_count]; every persisted key is still there, no key occurs twice,
    and when every persisted record sits under its own
    [(title, url, source)] so does every merged one: no two records share
    an identity. *)
Theorem merge_size_invariant (P : pydict) (I : list event) :
  NoDup (dict_keys P) ->
  let st := reconcile P I in
  Z.of_nat (List.length (merged st)) = Z.of_nat (List.length P) + new_count st
  /\ incl (dict_keys P) (dict_keys (merged st))
  /\ NoDup (dict_keys (merged st))
  /\ (keyed P -> NoDup (map key_of (dict_values (merged st)))).
Proof.
  intros ND st.
  destruct (merge_loop_shape I (P, 0, 0) ND) as (L & N & K & W).
  fold (reconcile P I) in L, N, K, W. fold st in L, N, K, W.
  unfold merged at 2, new_count at 2 in L. cbn [fst snd] in *.
  repeat split; auto; [lia|].
  intros HP. specialize (W HP).
  replace (map key_of (dict_values (merged st))) with (dict_keys (merged st));
    [assumption|].
  unfold dict_keys, dict_values. rewrite map_map.
  apply map_ext_in. intros kv Hkv. unfold keyed in W.
  rewrite Forall_forall in W. symmetry. now apply W.
Qed.

(** C1 (amended).  When no two incoming records of the same identity key
    carry different non-placeholder values for [date] or for [location],
    merging any permutation of the batch gives the same mapping: the same
    record under every key, and, for a persisted mapping with unique keys,
    the same set of bindings. *)
Theorem reconcile_permutation (P : pydict) (I I' : list event) :
  conflict_free I -> Permutation I I' ->
  (forall k, dict_get k (merged (reconcile P I))
             = dict_get k (merged (reconcile P I')))
  /\ (NoDup (dict_keys P) ->
      Permutation (merged (reconcile P I)) (merged (reconcile P I'))).
Proof.
  intros C Pm.
  assert (G : forall k, dict_get k (merged (reconcile P I))
                        = dict_get k (merged (reconcile P I'))).
  { intros k. unfold reconcile. rewrite !merge_loop_get.
    now apply fold_step_at_Permutation. }
  split; [exact G|]. intros ND.
  apply same_lookups_Permutation; auto;
    apply (merge_loop_shape _ (P, 0, 0) ND).
Qed.

(** C1, as stated, fails: two incoming records of one key with the dates
    "21. April 2026" and "22. April 2026"; whichever comes first is kept. *)
Lemma reconcile_order_matters :
  Permutation [kongress_21; kongress_22] [kongress_22; kongress_21]
  /\ key_of kongress_21 = key_of kongress_22
  /\ merged (reconcile [] [kongress_21; kongress_22])
     = [(kongress_key, kongress_21)]
  /\ merged (reconcile [] [kongress_22; kongress_21])
     = [(kongress_key, kongress_22)]
  /\ dict_get kongress_key (merged (reconcile [] [kongress_21; kongress_22]))
     <> dict_get kongress_key (merged (reconcile [] [kongress_22; kongress_21])).
Proof.
  split; [apply perm_swap|].
  repeat split; try (vm_compute; reflexivity).
  vm_compute. discriminate.
Qed.

Lemma reconcile_permutation_witness :
  Permutation (merged (reconcile [] [kongress_21; kongress_berlin]))
              (merged (reconcile [] [kongress_berlin; kongress_21])).
Proof.
  apply (reconcile_permutation [] [kongress_21; kongress_berlin]
                               [kongress_berlin; kongress_21]).
  - intros e1 e2 [<-|[<-|[]]] [<-|[<-|[]]] _; split;
      unfold agree; simpl; auto.
  - apply perm_swap.
  - constructor.
Defined.

Lemma second_run_example :
  reconcile [] [kongress_unknown; kongress_21; kongress_berlin]
  = ([(kongress_key, kongress (text "21. April 2026") (text "Berlin"))], 1, 2)
  /\ reconcile [(kongress_key, kongress (text "21. April 2026") (text "Berlin"))]
               [kongress_unknown; kongress_21; kongress_berlin]
     = ([(kongress_key, kongress (text "21. April 2026") (text "Berlin"))], 0, 0).
Proof. split; vm_compute; reflexivity. Qed.

Lemma enriched_field_is_final_witness :
  exists r', dict_get kongress_key
               (merged (merge_loop ([(kongress_key, kongress_21)], 0, 0)
                                   [kongress_22; kongress_berlin])) = Some r'
    /\ (date kongress_21 <> See_details ->
        date r' = date kongress_21 /\ date r' <> See_details)
    /\ (location kongress_21 <> See_details ->
        location r' = location kongress_21 /\ location r' <> See_details).
Proof.
  apply (enriched_field_is_final ([(kongress_key, kongress_21)], 0, 0)
           [kongress_22; kongress_berlin] kongress_key kongress_21).
  reflexivity.
Defined.

Lemma merge_size_invariant_witness :
  Z.of_nat (List.length (merged (reconcile [(kongress_key, kongress_unknown)]
                                           [kongress_21; kongress_berlin])))
  = Z.of_nat (List.length [(kongress_key, kongress_unknown)])
    + new_count (reconcile [(kongress_key, kongress_unknown)]
                           [kongress_21; kongress_berlin]).
Proof.
  assert (ND : NoDup (dict_keys [(kongress_key, kongress_unknown)]))
    by (repeat constructor; simpl; tauto).
  destruct (merge_size_invariant [(kongress_key, kongress_unknown)]
              [kongress_21; kongress_berlin] ND) as [H _].
  exact H.
Defined.

(* ================================================================== *)
(** ** The loader *)
(* ================================================================== *)

Lemma load_rows_skip pre r post : forall acc,
  hd_error r = Some None ->
  load_rows (pre ++ r :: post) acc = load_rows (pre ++ post) acc.
Proof.
  induction pre as [|p pre IH]; intros acc H; simpl.
  - destruct r as [|[c|] r']; simpl in H; try discriminate. reflexivity.
  - destruct p as [|[t|] [|da [|lo [|ur [|so [|x p']]]]]]; auto.
Qed.

(** C2 (amended).  On load, every row whose first cell is absent ([None])
    is skipped: the mapping is the one loaded from the sheet without that
    row.  A row whose first cell is the empty string is not skipped: it is
    loaded under the key [('', url, source)]. *)
Theorem load_skips_rows_without_title (header : row) (pre post : list row)
    (r : row) :
  hd_error r = Some None ->
  load_existing (Sheet (header :: pre ++ r :: post))
  = load_existing (Sheet (header :: pre ++ post))
  /\ forall da lo ur so,
       load_existing (Sheet [header; [Some []; da; lo; ur; so]])
       = [((Some [], ur, so), mkEvent (Some []) da lo ur so)].
Proof.
  intros H. split.
  - simpl. now apply load_rows_skip.
  - reflexivity.
Qed.

Lemma load_skips_rows_without_title_witness :
  load_existing
    (Sheet [header_row;
            [None; text "21. April 2026"; text "Berlin"; text "https://x/a"; text "X"];
            [text "Kongress A"; See_details; See_details; text "https://x/a"; text "X"]])
  = load_existing
      (Sheet [header_row;
              [text "Kongress A"; See_details; See_details; text "https://x/a"; text "X"]]).
Proof.
  apply (load_skips_rows_without_title header_row []
           [[text "Kongress A"; See_details; See_details; text "https://x/a"; text "X"]]
           [None; text "21. April 2026"; text "Berlin"; text "https://x/a"; text "X"]).
  reflexivity.
Defined.

(** C2, as stated, fails: a row whose first cell is the empty string is
    loaded, while the same row with an absent first cell is skipped. *)
Lemma empty_title_row_is_loaded :
  load_existing
    (Sheet [header_row;
            [Some []; text "21. April 2026"; text "Berlin"; text "https://x/a"; text "X"]])
  = [((Some [], text "https://x/a", text "X"),
      mkEvent (Some []) (text "21. April 2026") (text "Berlin")
              (text "https://x/a") (text "X"))]
  /\ load_existing
       (Sheet [header_row;
               [None; text "21. April 2026"; text "Berlin"; text "https://x/a"; text "X"]])
     = [].
Proof. split; reflexivity. Qed.

(* ================================================================== *)
(** ** Facts about the matcher *)
(* ================================================================== *)

Section Matcher.
Context {U : UnicodeDB}.

Lemma stop_here_sound (p : N -> bool) lo (hi : option nat) s rest :
  In rest (stop_here lo s) ->
  exists w, s = w ++ rest /\ forallb p w = true
            /\ (lo <= List.length w)%nat
            /\ (forall h, hi = Some h -> (List.length w <= h)%nat).
Proof.
  intros H. destruct lo; simpl in H; [|tauto].
  destruct H as [<-|[]]. exists []. simpl. repeat split; auto. intros; lia.
Qed.

(** Whatever a repetition leaves is a suffix; what it took passes the
    test and respects both bounds. *)
Lemma repeat_greedy_sound p s : forall lo hi rest,
  In rest (repeat_greedy p lo hi s) ->
  exists w, s = w ++ rest /\ forallb p w = true
            /\ (lo <= List.length w)%nat
            /\ (forall h, hi = Some h -> (List.length w <= h)%nat).
Proof.
  induction s as [|c s IH]; intros lo hi rest H.
  - simpl in H. destruct (exhausted hi); now apply stop_here_sound.
  - simpl in H. destruct (exhausted hi) eqn:X; [now apply stop_here_sound|].
    destruct (p c) eqn:Pc; [|now apply stop_here_sound].
    apply in_app_or in H. destruct H as [H|H]; [|now apply stop_here_sound].
    destruct (IH _ _ _ H) as (w & -> & Fw & Lw & Hw).
    exists (c :: w). simpl. rewrite Pc, Fw. repeat split; [lia|].
    intros h ->. destruct h as [|h]; [discriminate|].
    specialize (Hw h eq_refl). lia.
Qed.

Lemma exec_suffix r : forall s g g' rest,
  In (g', rest) (exec r s g) -> exists w, s = w ++ rest.
Proof.
  induction r as [a lo hi|r1 IH1 r2 IH2|n r IH|r IH]; intros s g g' rest H; simpl in H.
  - apply in_map_iff in H. destruct H as (x & E & H). inversion E; subst.
    apply repeat_greedy_sound in H. destruct H as (w & -> & _). eauto.
  - apply in_flat_map in H. destruct H as ([g1 s1] & H1 & H2). simpl in H2.
    apply IH1 in H1. apply IH2 in H2.
    destruct H1 as (w1 & ->), H2 as (w2 & ->). exists (w1 ++ w2).
    now rewrite app_assoc.
  - apply in_map_iff in H. destruct H as ([g1 s1] & E & H). inversion E; subst.
    eauto.
  - apply in_app_or in H. destruct H as [H|[E|[]]]; eauto.
    inversion E; subst. now exists [].
Qed.

Lemma consumed_app (w rest : str) : consumed (w ++ rest) rest = w.
Proof.
  unfold consumed. rewrite length_app.
  replace (List.length w + List.length rest - List.length rest)%nat
    with (List.length w + 0)%nat by lia.
  rewrite firstn_app_2. simpl. apply app_nil_r.
Qed.

Lemma exec_Seq_In r1 r2 s g x :
  In x (exec (r1 +> r2) s g) ->
  exists g1 s1, In (g1, s1) (exec r1 s g) /\ In x (exec r2 s1 g1).
Proof.
  simpl. intros H. apply in_flat_map in H. destruct H as ([g1 s1] & H1 & H2).
  eauto.
Qed.

Lemma exec_Rep_In a lo hi s g g' rest :
  In (g', rest) (exec (Rep a lo hi) s g) -> g' = g.
Proof.
  simpl. intros H. apply in_map_iff in H. destruct H as (x & E & _).
  now inversion E.
Qed.

(** A numbered repetition binds its number to a run that passes the test. *)
Lemma exec_Group_Rep_In n a lo hi s g g' rest :
  In (g', rest) (exec (Group n (Rep a lo hi)) s g) ->
  exists w, g' = (n, w) :: g /\ s = w ++ rest
            /\ forallb (atom_matches a) w = true /\ (lo <= List.length w)%nat
            /\ (forall h, hi = Some h -> (List.length w <= h)%nat).
Proof.
  simpl. rewrite map_map. intros H. apply in_map_iff in H.
  destruct H as (x & E & H). simpl in E. inversion E; subst.
  apply repeat_greedy_sound in H. destruct H as (w & -> & F & L & B).
  exists w. rewrite consumed_app. auto.
Qed.

Lemma exec_Opt_In r s g x :
  In x (exec (Opt r) s g) -> In x (exec r s g) \/ x = (g, s).
Proof.
  simpl. intros H. apply in_app_or in H. destruct H as [H|[E|[]]]; auto.
Qed.

Lemma first_match_In r s g x : first_match r s g = Some x -> In x (exec r s g).
Proof.
  unfold first_match. destruct (exec r s g); simpl; [discriminate|].
  intros E. inversion E. now left.
Qed.

Lemma re_match_first r s :
  re_match r s = option_map fst (first_match r s []).
Proof. reflexivity. Qed.

Lemma re_match_In r s m :
  re_match r s = Some m -> exists rest, In (m, rest) (exec r s []).
Proof.
  rewrite re_match_first. destruct (first_match r s []) as [[g rest]|] eqn:F;
    simpl; [|discriminate].
  intros E. inversion E; subst. exists rest. now apply first_match_In.
Qed.

Lemma hd_error_app_Some {A} (l1 l2 : list A) x :
  hd_error l1 = Some x -> hd_error (l1 ++ l2) = Some x.
Proof. destruct l1; simpl; [discriminate|auto]. Qed.

Lemma first_Seq r1 r2 s g g1 s1 x :
  first_match r1 s g = Some (g1, s1) ->
  first_match r2 s1 g1 = Some x ->
  first_match (r1 +> r2) s g = Some x.
Proof.
  unfold first_match. simpl.
  destruct (exec r1 s g) as [|y l]; simpl; [discriminate|].
  intros E. inversion E; subst. simpl. apply hd_error_app_Some.
Qed.

Lemma first_Group n r s g g1 rest :
  first_match r s g = Some (g1, rest) ->
  first_match (Group n r) s g = Some ((n, consumed s rest) :: g1, rest).
Proof.
  unfold first_match. simpl.
  destruct (exec r s g) as [|y l]; simpl; [discriminate|].
  intros E. inversion E; subst. reflexivity.
Qed.

Lemma first_Opt r s g x :
  first_match r s g = Some x -> first_match (Opt r) s g = Some x.
Proof. unfold first_match. simpl. apply hd_error_app_Some. Qed.

Lemma repeat_greedy_first p w : forall lo hi rest,
  forallb p w = true ->
  (lo <= List.length w)%nat ->
  (forall h, hi = Some h -> (List.length w <= h)%nat) ->
  hi = Some (List.length w) \/ blocked p rest ->
  hd_error (repeat_greedy p lo hi (w ++ rest)) = Some rest.
Proof.
  induction w as [|c w IH]; intros lo hi rest F L B S.
  - simpl in L. assert (lo = O) by lia. subst lo. simpl.
    destruct rest as [|c rest]; simpl.
    + destruct (exhausted hi); reflexivity.
    + destruct (exhausted hi) eqn:X; [reflexivity|].
      destruct S as [->|S]; [discriminate|]. simpl in S. now rewrite S.
  - simpl in F. apply andb_true_iff in F. destruct F as [Pc F].
    simpl. destruct (exhausted hi) eqn:X.
    { destruct hi as [[|h]|]; try discriminate. specialize (B O eq_refl).
      simpl in B. lia. }
    rewrite Pc. apply hd_error_app_Some. apply IH; auto.
    + simpl in L. lia.
    + intros h E. destruct hi as [h0|]; [|discriminate]. simpl in E.
      inversion E; subst. specialize (B h0 eq_refl). simpl in B.
      destruct h0; [discriminate|]. simpl. lia.
    + destruct S as [->|S]; auto.
Qed.

Lemma first_Rep a lo hi w rest g :
  forallb (atom_matches a) w = true ->
  (lo <= List.length w)%nat ->
  (forall h, hi = Some h -> (List.length w <= h)%nat) ->
  hi = Some (List.length w) \/ blocked (atom_matches a) rest ->
  first_match (Rep a lo hi) (w ++ rest) g = Some (g, rest).
Proof.
  intros F L B S. unfold first_match. simpl.
  pose proof (repeat_greedy_first _ w lo hi rest F L B S) as H.
  destruct (repeat_greedy (atom_matches a) lo hi (w ++ rest)); simpl in *;
    [discriminate|]. now inversion H.
Qed.
End Matcher.

(* ================================================================== *)
(** ** [parse_date] raises nothing *)
(* ================================================================== *)

Section NeverRaises.
Context {U : UnicodeDB}.

Ltac split_seq H g s H1 :=
  apply exec_Seq_In in H; destruct H as (g & s & H1 & H).

Ltac skip_rep H :=
  let g := fresh "g" in let s := fresh "s" in let H1 := fresh "R" in
  split_seq H g s H1; apply exec_Rep_In in H1; subst g.

(** A match of the numeric pattern binds its three groups. *)
Lemma numeric_re_groups s m :
  re_match numeric_re s = Some m ->
  exists d mo y, group m 1 = Some d /\ group m 2 = Some mo /\ group m 3 = Some y.
Proof.
  intros H. apply re_match_In in H. destruct H as (rest & H).
  unfold numeric_re in H.
  split_seq H ga ta G1. apply exec_Group_Rep_In in G1. destruct G1 as (d & -> & _).
  skip_rep H.
  split_seq H gb tb G2. apply exec_Group_Rep_In in G2. destruct G2 as (mo & -> & _).
  skip_rep H.
  apply exec_Group_Rep_In in H. destruct H as (y & -> & _).
  exists d, mo, y. repeat split.
Qed.

(** A match of the month-name pattern binds groups 1, 3 and 4, the first
    and the last to non-empty runs of decimal digits. *)
Lemma month_name_re_groups s m :
  re_match month_name_re s = Some m ->
  exists d w y,
    group m 1 = Some d /\ group m 3 = Some w /\ group m 4 = Some y
    /\ forallb Py_UNICODE_ISDECIMAL d = true /\ d <> []
    /\ forallb Py_UNICODE_ISDECIMAL y = true /\ y <> [].
Proof.
  intros H. apply re_match_In in H. destruct H as (rest & H).
  unfold month_name_re, maybe, star, plus in H.
  split_seq H ga ta G1. apply exec_Group_Rep_In in G1.
  destruct G1 as (d & -> & _ & Fd & Ld & _).
  do 4 skip_rep H.
  split_seq H gb tb G2.
  assert (B1 : group gb 1 = Some d).
  { apply exec_Opt_In in G2. destruct G2 as [G2|E].
    - apply exec_Group_Rep_In in G2. destruct G2 as (d2 & -> & _). auto.
    - inversion E; subst. auto. }
  clear G2.
  do 2 skip_rep H.
  split_seq H gc tc G3. apply exec_Group_Rep_In in G3. destruct G3 as (w & -> & _).
  skip_rep H.
  apply exec_Group_Rep_In in H. destruct H as (y & -> & _ & Fy & Ly & _).
  exists d, w, y. simpl. repeat split; auto.
  - intros ->. simpl in Ld. lia.
  - intros ->. simpl in Ly. lia.
Qed.

Lemma py_int_digits s :
  forallb Py_UNICODE_ISDECIMAL s = true -> s <> [] ->
  py_int (Some s)
  = Ok (fold_left (fun acc c => 10 * acc + Py_UNICODE_TODECIMAL c) s 0).
Proof.
  intros F N. unfold py_int. destruct s; [congruence|]. now rewrite F.
Qed.

(** On text [int] raises [ValueError] or nothing. *)
Lemma py_int_text s :
  (exists z, py_int (Some s) = Ok z) \/ py_int (Some s) = Raise ValueError.
Proof.
  unfold py_int. destruct s; auto.
  destruct (forallb Py_UNICODE_ISDECIMAL (n :: s)); eauto.
Qed.

Lemma datetime_new_cases y m d :
  (valid_date y m d = true
   /\ datetime_new y m d = Ok (mkDatetime y m d 0 0 0 0))
  \/ (valid_date y m d = false /\ datetime_new y m d = Raise ValueError).
Proof. unfold datetime_new. destruct (valid_date y m d); auto. Qed.

Lemma try_numeric_total s : exists r, try_numeric s = Ok r.
Proof.
  unfold try_numeric. destruct (re_match numeric_re s) as [m|] eqn:M; eauto.
  destruct (numeric_re_groups _ _ M) as (d & mo & y & -> & -> & ->).
  destruct (py_int_text y) as [[zy ->]| ->];
    cbn [bind try_except_ValueError]; eauto.
  destruct (py_int_text mo) as [[zm ->]| ->];
    cbn [bind try_except_ValueError]; eauto.
  destruct (py_int_text d) as [[zd ->]| ->];
    cbn [bind try_except_ValueError]; eauto.
  destruct (datetime_new_cases zy zm zd) as [[_ ->]|[_ ->]];
    cbn [bind try_except_ValueError]; eauto.
Qed.

Lemma try_month_name_total s : exists r, try_month_name s = Ok r.
Proof.
  unfold try_month_name.
  destruct (re_match month_name_re s) as [m|] eqn:M; eauto.
  destruct (month_name_re_groups _ _ M)
    as (d & w & y & -> & -> & -> & Fd & Nd & Fy & Ny).
  rewrite !py_int_digits by assumption. cbn [bind py_lower].
  destruct (month_lookup (str_lower w) month_map) as [mo|]; eauto.
  match goal with |- context [datetime_new ?a ?b ?c] =>
    destruct (datetime_new_cases a b c) as [[_ ->]|[_ ->]] end;
    cbn [bind try_except_ValueError]; eauto.
Qed.

(** [parse_date] returns on every cell. *)
Lemma parse_date_returns (date_str : cell) : exists r, parse_date date_str = Ok r.
Proof.
  unfold parse_date. destruct date_str as [s|]; eauto.
  destruct (is_empty s || cell_eqb (Some s) See_details); eauto.
  destruct (try_numeric_total s) as [[dt|] ->]; simpl; eauto.
  apply try_month_name_total.
Qed.

Lemma parse_date_placeholder : parse_date See_details = Ok None.
Proof.
  unfold parse_date, See_details.
  replace (cell_eqb (Some (py "See details")) (Some (py "See details")))
    with true by (symmetry; now apply cell_eqb_eq).
  now rewrite orb_true_r.
Qed.

Lemma parse_date_no_match s :
  re_match numeric_re s = None -> re_match month_name_re s = None ->
  parse_date (Some s) = Ok None.
Proof.
  intros H1 H2. unfold parse_date, try_numeric, try_month_name.
  rewrite H1, H2. simpl. destruct (is_empty s || _); reflexivity.
Qed.

(** Text that does not start with a decimal digit matches neither pattern. *)
Lemma no_leading_digit c s :
  Py_UNICODE_ISDECIMAL c = false ->
  re_match numeric_re (c :: s) = None /\ re_match month_name_re (c :: s) = None.
Proof.
  intros H. unfold re_match, numeric_re, month_name_re. simpl. rewrite H.
  simpl. auto.
Qed.
End NeverRaises.

(** C6.  [parse_date] is total and raises nothing: on every cell, text or
    absent, it returns; it returns [None] for the placeholder, for the empty
    string and for every text neither pattern matches, such as "gibberish"
    under any character database that agrees with Latin-1. *)
Theorem parse_date_never_raises {U : UnicodeDB} (date_str : cell) :
  (exists r, parse_date date_str = Ok r)
  /\ parse_date See_details = Ok None
  /\ parse_date (Some []) = Ok None
  /\ parse_date None = Ok None
  /\ (forall s, re_match numeric_re s = None ->
                re_match month_name_re s = None ->
                parse_date (Some s) = Ok None)
  /\ (Latin1Compatible U -> parse_date (text "gibberish") = Ok None).
Proof.
  split; [apply parse_date_returns|].
  split; [apply parse_date_placeholder|].
  split; [reflexivity|]. split; [reflexivity|].
  split.
  - intros s. apply parse_date_no_match.
  - intros C.
    assert (D : Py_UNICODE_ISDECIMAL (chr "g") = false)
      by (rewrite (compat_isdecimal U C); reflexivity).
    destruct (no_leading_digit (chr "g") (py "ibberish") D) as [H1 H2].
    apply parse_date_no_match; [exact H1|exact H2].
Qed.

Lemma latin1_db_compatible : Latin1Compatible latin1_db.
Proof. constructor; intros; reflexivity. Qed.

Lemma parse_date_never_raises_witness :
  @parse_date latin1_db (text "gibberish") = Ok None
  /\ @parse_date latin1_db (text "Termin folgt") = Ok None.
Proof.
  destruct (@parse_date_never_raises latin1_db None)
    as (_ & _ & _ & _ & Hno & Hg).
  split.
  - apply Hg. apply latin1_db_compatible.
  - apply Hno; vm_compute; reflexivity.
Defined.

(* ================================================================== *)
(** ** Facts about the Latin-1 tables *)
(* ================================================================== *)

Lemma below_256_check (P : N -> bool) :
  forallb P (map N.of_nat (seq 0 256)) = true ->
  forall c, (c < 256)%N -> P c = true.
Proof.
  intros H c Hc. rewrite forallb_forall in H. apply H.
  apply in_map_iff. exists (N.to_nat c). split; [apply N2Nat.id|].
  apply in_seq. lia.
Qed.

Lemma digit_below c : latin1_isdecimal c = true -> (c < 256)%N.
Proof.
  unfold latin1_isdecimal, in_range. rewrite andb_true_iff, !N.leb_le. lia.
Qed.

Lemma digit_facts c :
  latin1_isdecimal c = true ->
  latin1_isspace c = false /\ latin1_isalnum c = true
  /\ (c =? chr ".")%N = false /\ (c =? chr "/")%N = false
  /\ (c =? chr "S")%N = false.
Proof.
  intros H. pose proof (digit_below c H) as B. revert H.
  pose proof (below_256_check
    (fun c => implb (latin1_isdecimal c)
                (negb (latin1_isspace c) && latin1_isalnum c
                 && negb (c =? chr ".")%N && negb (c =? chr "/")%N
                 && negb (c =? chr "S")%N)) eq_refl c B) as K.
  simpl in K. intros H. rewrite H in K. simpl in K.
  repeat (apply andb_true_iff in K; destruct K as [K ?]).
  repeat match goal with H : negb _ = true |- _ => apply negb_true_iff in H end.
  auto.
Qed.

Lemma month_letter_facts c :
  (c < 256)%N -> month_letter (latin1_tolower c) = true ->
  latin1_isalnum c = true /\ latin1_isspace c = false.
Proof.
  intros B.
  pose proof (below_256_check
    (fun c => implb (month_letter (latin1_tolower c))
                (latin1_isalnum c && negb (latin1_isspace c))) eq_refl c B) as K.
  simpl in K. intros H. rewrite H in K. simpl in K.
  apply andb_true_iff in K. destruct K as [K1 K2].
  apply negb_true_iff in K2. auto.
Qed.

Lemma is_digits_cons ds :
  is_digits ds = true ->
  exists c ds', ds = c :: ds' /\ latin1_isdecimal c = true
                /\ forallb latin1_isdecimal ds = true.
Proof.
  unfold is_digits. destruct ds as [|c ds']; simpl; [discriminate|].
  intros H. apply andb_true_iff in H. destruct H as [Hc H].
  exists c, ds'. rewrite Hc, H. auto.
Qed.

Section Latin1.
Context {U : UnicodeDB} (C : Latin1Compatible U).

Lemma digit_isdecimal c :
  latin1_isdecimal c = true -> Py_UNICODE_ISDECIMAL c = true.
Proof.
  intros H. rewrite (compat_isdecimal U C); auto using digit_below.
Qed.

Lemma digits_isdecimal ds :
  forallb latin1_isdecimal ds = true -> forallb Py_UNICODE_ISDECIMAL ds = true.
Proof.
  rewrite !forallb_forall. intros H c Hc. apply digit_isdecimal. auto.
Qed.

Lemma digits_spaceless ds :
  forallb latin1_isdecimal ds = true -> spaceless ds.
Proof.
  rewrite forallb_forall. intros H. apply Forall_forall. intros c Hc.
  specialize (H c Hc). rewrite (compat_isspace U C) by now apply digit_below.
  now apply digit_facts.
Qed.

Lemma py_int_ascii ds : is_digits ds = true -> py_int (Some ds) = Ok (decimal ds).
Proof.
  intros H. destruct (is_digits_cons ds H) as (c & ds' & E & Hc & F).
  rewrite py_int_digits; [|now apply digits_isdecimal|subst; discriminate].
  f_equal. unfold decimal. clear E Hc H. revert F. generalize 0.
  induction ds as [|x ds IH]; intros z F; simpl; [reflexivity|].
  simpl in F. apply andb_true_iff in F. destruct F as [Fx F].
  rewrite (compat_todecimal U C) by assumption. now apply IH.
Qed.

Lemma not_decimal c :
  (c < 256)%N -> latin1_isdecimal c = false -> Py_UNICODE_ISDECIMAL c = false.
Proof. intros B H. now rewrite (compat_isdecimal U C). Qed.

(** A numbered run of ASCII digits in front of a character that is no
    digit, or as long as the pattern allows. *)
Lemma first_digits n lo hi ds rest g :
  forallb latin1_isdecimal ds = true ->
  (lo <= List.length ds)%nat ->
  (forall h, hi = Some h -> (List.length ds <= h)%nat) ->
  hi = Some (List.length ds) \/ blocked Py_UNICODE_ISDECIMAL rest ->
  first_match (Group n (Rep Digit lo hi)) (ds ++ rest) g
  = Some ((n, ds) :: g, rest).
Proof.
  intros F L B S.
  rewrite (first_Group n _ _ g g rest).
  - now rewrite consumed_app.
  - apply first_Rep; auto. simpl. now apply digits_isdecimal.
Qed.

Lemma first_literal c rest g :
  first_match (one (Lit c)) (c :: rest) g = Some (g, rest).
Proof.
  apply (first_Rep (Lit c) 1 (Some 1%nat) [c] rest g); simpl; auto.
  - now rewrite N.eqb_refl.
  - intros h E. inversion E. lia.
Qed.
End Latin1.

(* ================================================================== *)
(** ** The numeric pattern on [DD.MM.YYYY] *)
(* ================================================================== *)

Section Numeric.
Context {U : UnicodeDB} (C : Latin1Compatible U).

Lemma dot_blocks_digits rest : blocked Py_UNICODE_ISDECIMAL (chr "." :: rest).
Proof. simpl. now apply (not_decimal C). Qed.

Lemma numeric_first_match d m y rest :
  is_digits d = true -> (List.length d <= 2)%nat ->
  is_digits m = true -> (List.length m <= 2)%nat ->
  is_digits y = true -> List.length y = 4%nat ->
  first_match numeric_re (d ++ py "." ++ m ++ py "." ++ y ++ rest) []
  = Some ([(3%nat, y); (2%nat, m); (1%nat, d)], rest).
Proof.
  intros Hd Ld Hm Lm Hy Ly.
  destruct (is_digits_cons d Hd) as (cd & d' & Ed & _ & Fd).
  destruct (is_digits_cons m Hm) as (cm & m' & Em & _ & Fm).
  destruct (is_digits_cons y Hy) as (cy & y' & Ey & _ & Fy).
  unfold numeric_re. change (py ".") with [chr "."]. cbn [app].
  eapply first_Seq.
  { apply (first_digits C);
      [assumption|subst d; simpl; lia|intros h E; inversion E; lia
      |right; apply dot_blocks_digits]. }
  eapply first_Seq; [apply first_literal|].
  eapply first_Seq.
  { apply (first_digits C);
      [assumption|subst m; simpl; lia|intros h E; inversion E; lia
      |right; apply dot_blocks_digits]. }
  eapply first_Seq; [apply first_literal|].
  apply (first_digits C);
    [assumption|lia|intros h E; inversion E; lia|left; now rewrite Ly].
Qed.

Lemma try_numeric_digits d m y rest :
  is_digits d = true -> (List.length d <= 2)%nat ->
  is_digits m = true -> (List.length m <= 2)%nat ->
  is_digits y = true -> List.length y = 4%nat ->
  try_numeric (d ++ py "." ++ m ++ py "." ++ y ++ rest)
  = Ok (if valid_date (decimal y) (decimal m) (decimal d)
        then Some (midnight (decimal y) (decimal m) (decimal d))
        else None).
Proof.
  intros Hd Ld Hm Lm Hy Ly. unfold try_numeric.
  rewrite re_match_first, (numeric_first_match d m y rest) by assumption.
  cbn [option_map fst group Nat.eqb].
  rewrite !(py_int_ascii C) by assumption. cbn [bind].
  unfold datetime_new, midnight.
  destruct (valid_date (decimal y) (decimal m) (decimal d)); reflexivity.
Qed.

(** Text that starts with an ASCII digit passes the first test of
    [parse_date]. *)
Lemma parse_date_leading_digit c s :
  latin1_isdecimal c = true ->
  parse_date (Some (c :: s))
  = (first <- try_numeric (c :: s) ;;
     match first with
     | Some dt => Ok (Some dt)
     | None => try_month_name (c :: s)
     end).
Proof.
  intros H. unfold parse_date. cbn [is_empty orb].
  destruct (cell_eqb (Some (c :: s)) See_details) eqn:E; [|reflexivity].
  apply cell_eqb_eq in E. unfold See_details in E.
  change (py "See details") with (chr "S" :: py "ee details") in E.
  inversion E; subst. discriminate.
Qed.

Lemma exec_spaceless r s g g' s' :
  In (g', s') (exec r s g) -> spaceless s -> spaceless s'.
Proof.
  intros H S. apply exec_suffix in H. destruct H as (w & ->).
  unfold spaceless in *. apply Forall_app in S. tauto.
Qed.

Lemma seq_no_match r1 r2 s g :
  (forall g1 s1, In (g1, s1) (exec r1 s g) -> exec r2 s1 g1 = []) ->
  exec (r1 +> r2) s g = [].
Proof.
  simpl. induction (exec r1 s g) as [|[g1 s1] l IH]; intros H; simpl.
  - reflexivity.
  - rewrite (H g1 s1) by now left. apply IH. intros g2 s2 I. apply H. now right.
Qed.

(** The month-name pattern asks for white space before the year. *)
Lemma month_name_needs_space s :
  spaceless s -> re_match month_name_re s = None.
Proof.
  intros S. unfold re_match.
  replace (exec month_name_re s []) with (@nil (groups * str)); [reflexivity|].
  symmetry. unfold month_name_re. revert S. generalize (@nil (nat * str)).
  generalize s.
  do 9 (intros s0 g0 S0; apply seq_no_match; intros g1 s1 I1;
        apply exec_spaceless in I1; [|exact S0]; revert I1;
        generalize g1; generalize s1; clear).
  intros s0 g0 S0. apply seq_no_match. intros g1 s1 I. exfalso.
  unfold plus in I. simpl in I. apply in_map_iff in I.
  destruct I as (x & _ & I). destruct s0 as [|c s0]; simpl in I; [tauto|].
  inversion S0 as [|? ? Hc]; subst. rewrite Hc in I. simpl in I. tauto.
Qed.
End Numeric.

Section NumericText.
Context {U : UnicodeDB} (C : Latin1Compatible U).

Lemma dot_spaceless : spaceless (py ".").
Proof.
  repeat constructor. now rewrite (compat_isspace U C).
Qed.

Lemma dd_mm_yyyy_spaceless d m y :
  is_digits d = true -> is_digits m = true -> is_digits y = true ->
  spaceless (d ++ py "." ++ m ++ py "." ++ y).
Proof.
  intros Hd Hm Hy.
  destruct (is_digits_cons d Hd) as (? & ? & _ & _ & Fd).
  destruct (is_digits_cons m Hm) as (? & ? & _ & _ & Fm).
  destruct (is_digits_cons y Hy) as (? & ? & _ & _ & Fy).
  unfold spaceless.
  pose proof (digits_spaceless C) as D. pose proof dot_spaceless as P.
  unfold spaceless in *.
  repeat (apply Forall_app; split); auto.
Qed.
End NumericText.

(** C5.  A text [DD.MM.YYYY] (day and month of one or two ASCII digits,
    year of four) is read day first: when day, month and year name a day of
    the calendar, [parse_date] returns exactly that day; when they do not
    (31.02.2026), it returns [None]. *)
Theorem parse_date_dd_mm_yyyy {U : UnicodeDB} (d m y : str) :
  Latin1Compatible U ->
  is_digits d = true -> (List.length d <= 2)%nat ->
  is_digits m = true -> (List.length m <= 2)%nat ->
  is_digits y = true -> List.length y = 4%nat ->
  parse_date (Some (d ++ py "." ++ m ++ py "." ++ y))
  = Ok (if valid_date (decimal y) (decimal m) (decimal d)
        then Some (midnight (decimal y) (decimal m) (decimal d))
        else None).
Proof.
  intros C Hd Ld Hm Lm Hy Ly.
  pose proof (dd_mm_yyyy_spaceless C d m y Hd Hm Hy) as S.
  pose proof (try_numeric_digits C d m y [] Hd Ld Hm Lm Hy Ly) as T.
  rewrite app_nil_r in T.
  destruct (is_digits_cons d Hd) as (c & d' & -> & Hc & _).
  cbn [app] in *. rewrite (parse_date_leading_digit c _ Hc), T. cbn [bind].
  destruct (valid_date (decimal y) (decimal m) (decimal (c :: d')));
    [reflexivity|].
  unfold try_month_name. now rewrite (month_name_needs_space _ S).
Qed.

Lemma parse_date_dd_mm_yyyy_witness :
  @parse_date latin1_db (text "10.03.2026") = Ok (Some (midnight 2026 3 10))
  /\ @parse_date latin1_db (text "31.02.2026") = Ok None.
Proof.
  split.
  - exact (@parse_date_dd_mm_yyyy latin1_db (py "10") (py "03") (py "2026")
             latin1_db_compatible eq_refl (le_n 2) eq_refl (le_n 2) eq_refl eq_refl).
  - exact (@parse_date_dd_mm_yyyy latin1_db (py "31") (py "02") (py "2026")
             latin1_db_compatible eq_refl (le_n 2) eq_refl (le_n 2) eq_refl eq_refl).
Defined.

(** C10.  The numeric rule looks at a prefix only: a text that begins with
    [DD.MM.YYYY] for a day of the calendar parses as that day whatever
    follows the year. *)
Theorem parse_date_prefix {U : UnicodeDB} (d m y rest : str) :
  Latin1Compatible U ->
  is_digits d = true -> (List.length d <= 2)%nat ->
  is_digits m = true -> (List.length m <= 2)%nat ->
  is_digits y = true -> List.length y = 4%nat ->
  valid_date (decimal y) (decimal m) (decimal d) = true ->
  parse_date (Some (d ++ py "." ++ m ++ py "." ++ y ++ rest))
  = Ok (Some (midnight (decimal y) (decimal m) (decimal d))).
Proof.
  intros C Hd Ld Hm Lm Hy Ly V.
  pose proof (try_numeric_digits C d m y rest Hd Ld Hm Lm Hy Ly) as T.
  destruct (is_digits_cons d Hd) as (c & d' & -> & Hc & _).
  cbn [app] in *. rewrite (parse_date_leading_digit c _ Hc), T, V.
  reflexivity.
Qed.

Lemma parse_date_prefix_witness :
  @parse_date latin1_db (text "10.03.2026 - 12.03.2026")
  = Ok (Some (midnight 2026 3 10)).
Proof.
  exact (@parse_date_prefix latin1_db (py "10") (py "03") (py "2026")
           (py " - 12.03.2026") latin1_db_compatible
           eq_refl (le_n 2) eq_refl (le_n 2) eq_refl eq_refl eq_refl).
Defined.

(* ================================================================== *)
(** ** Day ranges with a month name *)
(* ================================================================== *)

Lemma month_lookup_In k v table :
  month_lookup k table = Some v -> In (k, v) table.
Proof.
  induction table as [|[k' v'] table IH]; simpl; [discriminate|].
  destruct (str_eq_dec k k'); intros H.
  - left. congruence.
  - right. auto.
Qed.

(** The keys of [month_map] are non-empty words of [month_letter]s. *)
Lemma month_map_keys k v :
  month_lookup k month_map = Some v -> forallb month_letter k = true /\ k <> [].
Proof.
  intros H. apply month_lookup_In in H.
  assert (K : forallb (fun kv => forallb month_letter (fst kv)
                                 && negb (is_empty (fst kv))) month_map = true)
    by reflexivity.
  rewrite forallb_forall in K. specialize (K _ H). simpl in K.
  apply andb_true_iff in K. destruct K as [K1 K2]. split; [exact K1|].
  intros ->. discriminate.
Qed.

Lemma run_unique (p : N -> bool) (w1 : str) : forall w2 r1 r2,
  forallb p w1 = true -> forallb p w2 = true ->
  blocked p r1 -> blocked p r2 ->
  w1 ++ r1 = w2 ++ r2 -> w1 = w2 /\ r1 = r2.
Proof.
  induction w1 as [|c w1 IH]; intros [|c2 w2] r1 r2 F1 F2 B1 B2 E; simpl in *.
  - auto.
  - subst r1. simpl in B1. apply andb_true_iff in F2. destruct F2. congruence.
  - subst r2. simpl in B2. apply andb_true_iff in F1. destruct F1. congruence.
  - apply andb_true_iff in F1, F2. destruct F1 as [_ F1], F2 as [_ F2].
    injection E as -> E. destruct (IH w2 r1 r2 F1 F2 B1 B2 E) as [-> ->]. auto.
Qed.

Section Shapes.
Context {U : UnicodeDB}.

Lemma exec_literal_In c s g g' rest :
  In (g', rest) (exec (one (Lit c)) s g) -> g' = g /\ s = c :: rest.
Proof.
  unfold one. simpl. intros H. apply in_map_iff in H.
  destruct H as (x & E & H). inversion E; subst.
  apply repeat_greedy_sound in H. destruct H as (w & -> & F & L & B).
  specialize (B 1%nat eq_refl).
  destruct w as [|a [|b w]]; simpl in *; try lia.
  rewrite andb_true_r in F. apply N.eqb_eq in F. subst. auto.
Qed.

(** What a match of the numeric pattern says about the text. *)
Lemma numeric_re_shape s m :
  re_match numeric_re s = Some m ->
  exists d mo y rest,
    s = d ++ chr "." :: mo ++ chr "." :: y ++ rest
    /\ forallb Py_UNICODE_ISDECIMAL d = true
    /\ forallb Py_UNICODE_ISDECIMAL mo = true /\ mo <> []
    /\ forallb Py_UNICODE_ISDECIMAL y = true /\ y <> [].
Proof.
  intros H. apply re_match_In in H. destruct H as (rest & H).
  unfold numeric_re in H.
  apply exec_Seq_In in H. destruct H as (ga & ta & G1 & H).
  apply exec_Group_Rep_In in G1. destruct G1 as (d & -> & -> & Fd & _).
  apply exec_Seq_In in H. destruct H as (gb & tb & G2 & H).
  apply exec_literal_In in G2. destruct G2 as [-> ->].
  apply exec_Seq_In in H. destruct H as (gc & tc & G3 & H).
  apply exec_Group_Rep_In in G3. destruct G3 as (mo & -> & -> & Fm & Lm & _).
  apply exec_Seq_In in H. destruct H as (gd & td & G4 & H).
  apply exec_literal_In in G4. destruct G4 as [-> ->].
  apply exec_Group_Rep_In in H. destruct H as (y & -> & -> & Fy & Ly & _).
  exists d, mo, y, rest. repeat split; auto.
  - intros ->. simpl in Lm. lia.
  - intros ->. simpl in Ly. lia.
Qed.

Lemma first_maybe_take c rest g :
  first_match (maybe (Lit c)) (c :: rest) g = Some (g, rest).
Proof.
  apply (first_Rep (Lit c) 0 (Some 1%nat) [c] rest g); simpl; auto.
  - now rewrite N.eqb_refl.
  - intros h E. inversion E. lia.
Qed.

Lemma first_skip a hi rest g :
  blocked (atom_matches a) rest ->
  first_match (Rep a 0 hi) rest g = Some (g, rest).
Proof.
  intros B. apply (first_Rep a 0 hi [] rest g); simpl; auto.
  intros h _. lia.
Qed.
End Shapes.

Lemma blocked_app (p : N -> bool) (n rest : str) :
  n <> [] -> (forall c, In c n -> p c = false) -> blocked p (n ++ rest).
Proof.
  destruct n as [|c n]; [congruence|]. intros _ H. simpl. apply H. now left.
Qed.

Lemma length_pos {A} (l : list A) : l <> [] -> (1 <= List.length l)%nat.
Proof. destruct l; [congruence|simpl; lia]. Qed.

Section DayRange.
Context {U : UnicodeDB} (C : Latin1Compatible U).

Lemma name_chars name mo c :
  Latin1 name -> month_lookup (map latin1_tolower name) month_map = Some mo ->
  In c name -> Py_UNICODE_ISALNUM c = true /\ Py_UNICODE_ISSPACE c = false.
Proof.
  intros Hname Hmo I. unfold Latin1 in Hname. rewrite Forall_forall in Hname.
  pose proof (Hname c I) as B.
  destruct (month_map_keys _ _ Hmo) as [F _]. rewrite forallb_forall in F.
  rewrite (compat_isalnum U C), (compat_isspace U C) by assumption.
  apply month_letter_facts; auto. apply F. now apply in_map.
Qed.

Lemma name_word name mo :
  Latin1 name -> month_lookup (map latin1_tolower name) month_map = Some mo ->
  forallb (atom_matches Word) name = true.
Proof.
  intros Hname Hmo. apply forallb_forall. intros c I. simpl.
  destruct (name_chars name mo c Hname Hmo I) as [-> _]. reflexivity.
Qed.

Lemma name_not_empty name mo :
  month_lookup (map latin1_tolower name) month_map = Some mo -> name <> [].
Proof.
  intros Hmo. destruct (month_map_keys _ _ Hmo) as [_ N]. intros ->. now apply N.
Qed.

Lemma name_blocks_space name mo rest :
  Latin1 name -> month_lookup (map latin1_tolower name) month_map = Some mo ->
  blocked Py_UNICODE_ISSPACE (name ++ rest).
Proof.
  intros Hname Hmo. apply blocked_app; [now apply (name_not_empty name mo)|].
  intros c I. now apply (name_chars name mo c).
Qed.

Lemma digits_block (a : atom) ds rest :
  is_digits ds = true -> a = Space \/ a = Lit (chr ".") \/ a = Lit (chr "/") ->
  blocked (atom_matches a) (ds ++ rest).
Proof.
  intros H A. destruct (is_digits_cons ds H) as (c & ds' & -> & Hc & _).
  destruct (digit_facts c Hc) as (S & _ & D & L & _). simpl.
  destruct A as [ -> | [ -> | -> ] ]; simpl; auto.
  rewrite (compat_isspace U C); auto using digit_below.
Qed.

Lemma space_run : forallb (atom_matches Space) [chr " "] = true.
Proof. simpl. now rewrite (compat_isspace U C). Qed.

Lemma space_not_word : atom_matches Word (chr " ") = false.
Proof. simpl. now rewrite (compat_isalnum U C). Qed.

Lemma separator_blocks_digits sep rest :
  In sep [py "."; py "/"; py "./"] ->
  blocked Py_UNICODE_ISDECIMAL (sep ++ rest).
Proof.
  intros [ <- | [ <- | [ <- | [] ] ] ]; simpl; now apply (not_decimal C).
Qed.

(** The three optional separator characters take [sep] and stop in front
    of the second day. *)
Lemma first_separator sep ds tail r g x :
  In sep [py "."; py "/"; py "./"] -> is_digits ds = true ->
  first_match r (ds ++ tail) g = Some x ->
  first_match (maybe (Lit (chr ".")) +> maybe (Lit (chr "/"))
               +> maybe (Lit (chr ".")) +> r)
              (sep ++ ds ++ tail) g = Some x.
Proof.
  intros Hsep Hds H.
  assert (B : forall a, a = Space \/ a = Lit (chr ".") \/ a = Lit (chr "/") ->
                        blocked (atom_matches a) (ds ++ tail))
    by (intros a; now apply digits_block).
  destruct Hsep as [ <- | [ <- | [ <- | [] ] ] ].
  - eapply first_Seq; [apply first_maybe_take|].
    eapply first_Seq; [apply first_skip; auto|].
    eapply first_Seq; [apply first_skip; auto|]. exact H.
  - eapply first_Seq; [apply first_skip; reflexivity|].
    eapply first_Seq; [apply first_maybe_take|].
    eapply first_Seq; [apply first_skip; auto|]. exact H.
  - eapply first_Seq; [apply first_maybe_take|].
    eapply first_Seq; [apply first_maybe_take|].
    eapply first_Seq; [apply first_skip; auto|]. exact H.
Qed.

Lemma range_first_match d1 sep d2 name y mo rest :
  is_digits d1 = true -> (List.length d1 <= 2)%nat ->
  In sep [py "."; py "/"; py "./"] ->
  is_digits d2 = true -> (List.length d2 <= 2)%nat ->
  Latin1 name -> month_lookup (map latin1_tolower name) month_map = Some mo ->
  is_digits y = true -> List.length y = 4%nat ->
  first_match month_name_re (d1 ++ sep ++ after_separator d2 name y rest) []
  = Some ([(4%nat, y); (3%nat, name); (2%nat, d2); (1%nat, d1)], rest).
Proof.
  intros Hd1 Ld1 Hsep Hd2 Ld2 Hname Hmo Hy Ly.
  destruct (is_digits_cons d1 Hd1) as (c1 & d1' & E1 & _ & F1).
  destruct (is_digits_cons d2 Hd2) as (c2 & d2' & E2 & _ & F2).
  destruct (is_digits_cons y Hy) as (cy & y' & Ey & _ & Fy).
  unfold month_name_re.
  eapply first_Seq.
  { apply (first_digits C);
      [assumption|rewrite E1; simpl; lia|intros h E; inversion E; lia
      |right; now apply separator_blocks_digits]. }
  unfold after_separator. apply first_separator; [assumption..|].
  eapply first_Seq; [apply first_skip; apply digits_block; auto|].
  eapply first_Seq.
  { apply first_Opt. apply (first_digits C);
      [assumption|rewrite E2; simpl; lia|intros h E; inversion E; lia
      |right; apply (dot_blocks_digits C)]. }
  eapply first_Seq; [apply first_maybe_take|].
  eapply first_Seq.
  { apply (first_Rep Space 0 None [chr " "]).
    - apply space_run.
    - simpl; lia.
    - discriminate.
    - right. now apply (name_blocks_space name mo). }
  eapply first_Seq.
  { apply first_Group. apply (first_Rep Word 1 None name).
    - now apply (name_word name mo).
    - apply length_pos. now apply (name_not_empty name mo).
    - discriminate.
    - right. apply space_not_word. }
  rewrite consumed_app.
  eapply first_Seq.
  { apply (first_Rep Space 1 None [chr " "]).
    - apply space_run.
    - simpl; lia.
    - discriminate.
    - right. apply digits_block; auto. }
  apply (first_digits C);
    [assumption|lia|intros h E; inversion E; lia|left; now rewrite Ly].
Qed.

(** The numeric pattern does not match such a text. *)
Lemma range_not_numeric d1 sep d2 name y rest :
  is_digits d1 = true -> In sep [py "."; py "/"; py "./"] ->
  is_digits d2 = true ->
  re_match numeric_re (d1 ++ sep ++ after_separator d2 name y rest) = None.
Proof.
  intros Hd1 Hsep Hd2.
  destruct (re_match numeric_re _) as [m|] eqn:M; [exfalso|reflexivity].
  apply numeric_re_shape in M.
  destruct M as (d & m' & yy & rest' & E & Fd & Fm & Nm & Fy & Ny).
  destruct (is_digits_cons d1 Hd1) as (c1 & d1' & _ & _ & F1).
  destruct (is_digits_cons d2 Hd2) as (c2 & d2' & _ & _ & F2).
  apply (run_unique Py_UNICODE_ISDECIMAL) in E;
    [|now apply (digits_isdecimal C)|assumption
     |now apply separator_blocks_digits|apply (dot_blocks_digits C)].
  destruct E as [_ E].
  assert (N47 : Py_UNICODE_ISDECIMAL (chr "/") = false)
    by now apply (not_decimal C).
  assert (N32 : Py_UNICODE_ISDECIMAL (chr " ") = false)
    by now apply (not_decimal C).
  simpl in N47, N32.
  destruct Hsep as [ <- | [ <- | [ <- | [] ] ] ]; simpl in E.
  - injection E as E. unfold after_separator in E.
    apply (run_unique Py_UNICODE_ISDECIMAL) in E;
      [|now apply (digits_isdecimal C)|assumption
       |apply (dot_blocks_digits C)|apply (dot_blocks_digits C)].
    destruct E as [_ E]. injection E as E.
    destruct yy as [|cy yy]; [congruence|]. simpl in E, Fy.
    injection E as <- _. rewrite N32 in Fy. discriminate.
  - discriminate.
  - injection E as E. destruct m' as [|cm m']; [congruence|].
    simpl in E, Fm. injection E as <- _. rewrite N47 in Fm. discriminate.
Qed.

Lemma parse_date_range d1 sep d2 name y mo rest :
  is_digits d1 = true -> (List.length d1 <= 2)%nat ->
  In sep [py "."; py "/"; py "./"] ->
  is_digits d2 = true -> (List.length d2 <= 2)%nat ->
  Latin1 name -> month_lookup (map latin1_tolower name) month_map = Some mo ->
  is_digits y = true -> List.length y = 4%nat ->
  valid_date (decimal y) mo (decimal d1) = true ->
  parse_date (Some (d1 ++ sep ++ after_separator d2 name y rest))
  = Ok (Some (midnight (decimal y) mo (decimal d1))).
Proof.
  intros Hd1 Ld1 Hsep Hd2 Ld2 Hname Hmo Hy Ly V.
  destruct (is_digits_cons d1 Hd1) as (c1 & d1' & E1 & Hc1 & _).
  pose proof (range_not_numeric d1 sep d2 name y rest Hd1 Hsep Hd2) as N.
  pose proof (range_first_match d1 sep d2 name y mo rest
                Hd1 Ld1 Hsep Hd2 Ld2 Hname Hmo Hy Ly) as M.
  rewrite E1 in N, M |- *. cbn [app] in N, M |- *.
  rewrite (parse_date_leading_digit c1 _ Hc1).
  unfold try_numeric. rewrite N. cbn [bind].
  unfold try_month_name. rewrite re_match_first, M.
  cbn [option_map fst group Nat.eqb].
  rewrite <- E1. rewrite !(py_int_ascii C) by assumption.
  cbn [bind py_lower]. rewrite (compat_lower U C) by assumption.
  rewrite Hmo. unfold datetime_new. rewrite V. reflexivity.
Qed.
End DayRange.

(** C8 (amended).  A day range [DD[./]DD. <MonthName> YYYY] (the
    separator one of ".", "/" and "./", days of one or two ASCII digits,
    the month name any Latin-1 spelling whose lower case is a key of
    [month_map]) parses as the first day of the range in that month and
    year, when that is a day of the calendar. *)
Theorem parse_date_day_range {U : UnicodeDB} (d1 sep d2 name y : str) (mo : Z) :
  Latin1Compatible U ->
  is_digits d1 = true -> (List.length d1 <= 2)%nat ->
  In sep [py "."; py "/"; py "./"] ->
  is_digits d2 = true -> (List.length d2 <= 2)%nat ->
  Latin1 name -> month_lookup (map latin1_tolower name) month_map = Some mo ->
  is_digits y = true -> List.length y = 4%nat ->
  valid_date (decimal y) mo (decimal d1) = true ->
  parse_date (Some (d1 ++ sep ++ d2 ++ py ". " ++ name ++ py " " ++ y))
  = Ok (Some (midnight (decimal y) mo (decimal d1))).
Proof.
  intros C Hd1 Ld1 Hsep Hd2 Ld2 Hname Hmo Hy Ly V.
  pose proof (parse_date_range C d1 sep d2 name y mo []
                Hd1 Ld1 Hsep Hd2 Ld2 Hname Hmo Hy Ly V) as H.
  unfold after_separator in H. rewrite app_nil_r in H. exact H.
Qed.

Lemma parse_date_day_range_witness :
  @parse_date latin1_db (Some (py "11./12. M" ++ a_umlaut :: py "rz 2026"))
  = Ok (Some (midnight 2026 3 11)).
Proof.
  refine (@parse_date_day_range latin1_db (py "11") (py "./") (py "12")
            (py "M" ++ a_umlaut :: py "rz") (py "2026") 3
            latin1_db_compatible eq_refl (le_n 2) _ eq_refl (le_n 2) _
            eq_refl eq_refl eq_refl eq_refl).
  - right. right. left. reflexivity.
  - repeat constructor.
Defined.

(** C8, as stated, fails: "30./31. Februar 2026" is a day range of the
    shape of the claim with a recognised month name, yet no date is
    returned: February 2026 has no 30th, [datetime] raises [ValueError]
    and the handler passes. *)
Lemma day_range_without_first_day :
  is_digits (py "30") = true
  /\ In (py "./") [py "."; py "/"; py "./"]
  /\ is_digits (py "31") = true
  /\ month_lookup (map latin1_tolower (py "Februar")) month_map = Some 2
  /\ is_digits (py "2026") = true
  /\ valid_date 2026 2 30 = false
  /\ @parse_date latin1_db
       (Some (py "30" ++ py "./" ++ py "31" ++ py ". " ++ py "Februar"
              ++ py " " ++ py "2026"))
     = Ok None.
Proof.
  split; [reflexivity|]. split; [right; right; left; reflexivity|].
  do 4 (split; [reflexivity|]). vm_compute. reflexivity.
Qed.

(* ================================================================== *)
(** ** Stable sorting by a key *)
(* ================================================================== *)

Section SortFacts.
Context {K A : Type} (ltb : K -> K -> bool) (g : A -> K).
Hypothesis ltb_asym : forall a b, ltb a b = true -> ltb b a = false.
Hypothesis ltb_negtrans :
  forall a b c, ltb b a = false -> ltb c b = false -> ltb c a = false.

Lemma insert_by_Permutation x l : Permutation (insert_by ltb g x l) (x :: l).
Proof.
  induction l as [|y l IH]; simpl; [reflexivity|].
  destruct (ltb (g y) (g x)); [|reflexivity].
  rewrite IH. apply perm_swap.
Qed.

Lemma sort_by_Permutation l : Permutation (sort_by ltb g l) l.
Proof.
  induction l as [|x l IH]; simpl; [reflexivity|].
  rewrite insert_by_Permutation. now constructor.
Qed.

Lemma insert_by_sorted x l :
  StronglySorted (in_order ltb g) l -> StronglySorted (in_order ltb g) (insert_by ltb g x l).
Proof.
  induction 1 as [|y l S IH F]; simpl.
  - repeat constructor.
  - destruct (ltb (g y) (g x)) eqn:E.
    + constructor; [exact IH|].
      rewrite Forall_forall in *. intros z Hz.
      apply (Permutation_in _ (insert_by_Permutation x l)) in Hz.
      destruct Hz as [<-|Hz]; [now apply ltb_asym|now apply F].
    + constructor; [now constructor|].
      constructor; [exact E|].
      rewrite Forall_forall in *. intros z Hz.
      unfold in_order. eapply ltb_negtrans; [exact E|now apply F].
Qed.

Lemma sort_by_sorted l : StronglySorted (in_order ltb g) (sort_by ltb g l).
Proof.
  induction l as [|x l IH]; simpl; [constructor|]. now apply insert_by_sorted.
Qed.

(** Records that the order does not tell apart keep their input order. *)
Lemma insert_by_filter (P : A -> bool) x l :
  (forall y, In y l -> P y = true -> P x = true -> ltb (g y) (g x) = false) ->
  filter P (insert_by ltb g x l) = filter P (x :: l).
Proof.
  induction l as [|y l IH]; intros H; simpl; [reflexivity|].
  destruct (ltb (g y) (g x)) eqn:E; [|reflexivity].
  simpl. rewrite IH by (intros z Hz; apply H; now right). simpl.
  destruct (P y) eqn:Py, (P x) eqn:Px; try reflexivity.
  rewrite (H y) in E; auto; [discriminate|now left].
Qed.

Lemma sort_by_stable (P : A -> bool) l :
  (forall a b, P a = true -> P b = true -> ltb (g a) (g b) = false) ->
  filter P (sort_by ltb g l) = filter P l.
Proof.
  intros H. induction l as [|x l IH]; simpl; [reflexivity|].
  rewrite insert_by_filter by (intros; now apply H). simpl. now rewrite IH.
Qed.
End SortFacts.

Lemma StronglySorted_filter {A} (R : A -> A -> Prop) (P : A -> bool) l :
  StronglySorted R l -> StronglySorted R (filter P l).
Proof.
  induction 1 as [|a l S IH F]; simpl; [constructor|].
  destruct (P a); [|exact IH]. constructor; [exact IH|].
  rewrite Forall_forall in *. intros b Hb. apply filter_In in Hb. now apply F.
Qed.

Lemma StronglySorted_weaken {A} (R R' : A -> A -> Prop) l :
  (forall a b, In a l -> In b l -> R a b -> R' a b) ->
  StronglySorted R l -> StronglySorted R' l.
Proof.
  intros H S. induction S as [|a l S IH F]; [constructor|].
  constructor.
  - apply IH. intros x y Hx Hy. apply H; now right.
  - rewrite Forall_forall in *. intros b Hb. apply H; simpl; auto.
Qed.

(** In a sorted list the records of a class that sorts first come first. *)
Lemma sorted_split {A} (R : A -> A -> Prop) (P : A -> bool) l :
  (forall a b, P a = false -> P b = true -> ~ R a b) ->
  StronglySorted R l ->
  l = filter P l ++ filter (fun a => negb (P a)) l.
Proof.
  intros H. induction 1 as [|a l S IH F]; simpl; [reflexivity|].
  destruct (P a) eqn:Pa; simpl.
  - now rewrite <- IH.
  - assert (N : forall b, In b l -> P b = false).
    { intros b Hb. destruct (P b) eqn:Pb; auto. exfalso.
      rewrite Forall_forall in F. exact (H a b Pa Pb (F b Hb)). }
    replace (filter P l) with (@nil A).
    + simpl. f_equal.
      clear -N. induction l as [|b l IH]; simpl; [reflexivity|].
      rewrite (N b) by now left. simpl. f_equal. apply IH.
      intros c Hc. apply N. now right.
    + clear -N. induction l as [|b l IH]; simpl; [reflexivity|].
      rewrite (N b) by now left. apply IH. intros c Hc. apply N. now right.
Qed.

Lemma mapM_pure {A B} (f : A -> result B) (g : A -> B) l :
  (forall a, f a = Ok (g a)) -> mapM f l = Ok (map g l).
Proof.
  intros H. induction l as [|a l IH]; simpl; [reflexivity|].
  now rewrite H, IH.
Qed.

Lemma insert_decorated {K A} (ltb : K -> K -> bool) (g : A -> K) x l :
  insert ltb (g x, x) (map (fun a => (g a, a)) l)
  = map (fun a => (g a, a)) (insert_by ltb g x l).
Proof.
  induction l as [|y l IH]; simpl; [reflexivity|].
  destruct (ltb (g y) (g x)); simpl; [now rewrite IH|reflexivity].
Qed.

(** With a key that never raises, [sorted] is straight insertion. *)
Lemma py_sorted_sort_by {K A} (ltb : K -> K -> bool)
    (key : A -> result K) (g : A -> K) l :
  (forall a, key a = Ok (g a)) -> py_sorted ltb key l = Ok (sort_by ltb g l).
Proof.
  intros H. unfold py_sorted. rewrite (mapM_pure key g l H). simpl. f_equal.
  replace (combine (map g l) l) with (map (fun a => (g a, a)) l).
  - assert (D : fold_right (insert ltb) [] (map (fun a => (g a, a)) l)
                = map (fun a => (g a, a)) (sort_by ltb g l)).
    { clear. induction l as [|x l IH]; simpl; [reflexivity|].
      rewrite IH. apply insert_decorated. }
    rewrite D, map_map. simpl. apply map_id.
  - clear. induction l as [|x l IH]; simpl; [reflexivity|]. now rewrite IH.
Qed.

Lemma filter_Permutation {A} (P : A -> bool) l l' :
  Permutation l l' -> Permutation (filter P l) (filter P l').
Proof.
  induction 1 as [|x l l' H IH|x y l|l l' l'' H1 IH1 H2 IH2]; simpl.
  - constructor.
  - destruct (P x); [now constructor|exact IH].
  - destruct (P x), (P y); try reflexivity. apply perm_swap.
  - now transitivity (filter P l').
Qed.

(* ================================================================== *)
(** ** The order on sort keys *)
(* ================================================================== *)

Lemma lex_ltb_asym a : forall b, lex_ltb a b = true -> lex_ltb b a = false.
Proof.
  induction a as [|x a IH]; intros [|y b]; simpl; auto; try discriminate.
  intros H. apply orb_true_iff in H. apply orb_false_iff.
  destruct H as [H|H].
  - apply Z.ltb_lt in H. split; [apply Z.ltb_ge; lia|].
    apply andb_false_iff. left. apply Z.eqb_neq. lia.
  - apply andb_true_iff in H. destruct H as [E H]. apply Z.eqb_eq in E. subst y.
    split; [apply Z.ltb_irrefl|]. rewrite Z.eqb_refl. simpl. now apply IH.
Qed.

Lemma lex_ltb_negtrans a : forall b c,
  lex_ltb b a = false -> lex_ltb c b = false -> lex_ltb c a = false.
Proof.
  induction a as [|x a IH]; intros b c H1 H2.
  - destruct c; reflexivity.
  - destruct b as [|y b]; [discriminate|].
    destruct c as [|z c]; [discriminate|]. simpl in *.
    apply orb_false_iff in H1, H2. destruct H1 as [L1 E1], H2 as [L2 E2].
    apply Z.ltb_ge in L1, L2. apply orb_false_iff. split; [apply Z.ltb_ge; lia|].
    destruct (Z.eqb_spec z x) as [->|N]; [|reflexivity]. simpl.
    assert (y = x) by lia. subst y. rewrite Z.eqb_refl in E1, E2.
    simpl in E1, E2. now apply (IH b c).
Qed.

Lemma key_ltb_lex a b : key_ltb a b = lex_ltb (key_fields a) (key_fields b).
Proof.
  unfold key_ltb, key_fields, datetime_ltb.
  cbn [lex_ltb]. destruct (Z.eqb_spec (fst a) (fst b)) as [E|N].
  - rewrite E, Z.ltb_irrefl. reflexivity.
  - rewrite andb_false_l, orb_false_r. reflexivity.
Qed.

Lemma key_ltb_asym a b : key_ltb a b = true -> key_ltb b a = false.
Proof. rewrite !key_ltb_lex. apply lex_ltb_asym. Qed.

Lemma key_ltb_negtrans a b c :
  key_ltb b a = false -> key_ltb c b = false -> key_ltb c a = false.
Proof. rewrite !key_ltb_lex. apply lex_ltb_negtrans. Qed.

Lemma key_ltb_irrefl a : key_ltb a a = false.
Proof.
  destruct (key_ltb a a) eqn:E; [|reflexivity].
  pose proof (key_ltb_asym a a E). congruence.
Qed.

(* ================================================================== *)
(** ** The ordering engine *)
(* ================================================================== *)

Section Ordering.
Context {U : UnicodeDB}.

Lemma sort_key_event_key ev : sort_key ev = Ok (event_key ev).
Proof.
  unfold sort_key, event_key, parsed_date.
  destruct (parse_date_returns (date ev)) as [[d|] ->]; reflexivity.
Qed.

Lemma has_date_key ev :
  has_date ev = true ->
  exists d, parsed_date ev = Some d /\ event_key ev = (0, d).
Proof.
  unfold has_date, event_key. destruct (parsed_date ev) as [d|];
    [eauto|discriminate].
Qed.

Lemma no_date_key ev : has_date ev = false -> event_key ev = (1, datetime_max).
Proof.
  unfold has_date, event_key. destruct (parsed_date ev); [discriminate|auto].
Qed.

Lemma sorted_events_sort_by d :
  sorted_events d = Ok (sort_by key_ltb event_key (dict_values d)).
Proof. apply py_sorted_sort_by. apply sort_key_event_key. Qed.
End Ordering.

(** C7.  The ordering engine returns a permutation of the records it is
    given; the records whose date parses come first, in ascending order of
    that date, followed by the records without a date in the order of the
    input; and the sort is stable: the records of any one sort key keep
    their input order. *)
Theorem sorted_events_order {U : UnicodeDB} (existing_events : pydict) :
  exists dated,
    sorted_events existing_events
    = Ok (dated ++ filter no_date (dict_values existing_events))
    /\ Permutation (dated ++ filter no_date (dict_values existing_events))
                   (dict_values existing_events)
    /\ Permutation dated (filter has_date (dict_values existing_events))
    /\ StronglySorted not_later dated
    /\ forall k, filter (has_key k)
                   (dated ++ filter no_date (dict_values existing_events))
                 = filter (has_key k) (dict_values existing_events).
Proof.
  set (l := dict_values existing_events).
  set (out := sort_by key_ltb event_key l).
  pose proof (sort_by_Permutation key_ltb event_key l) as P. fold out in P.
  pose proof (sort_by_sorted key_ltb event_key key_ltb_asym key_ltb_negtrans l)
    as S. fold out in S.
  assert (Split : out = filter has_date out ++ filter no_date out).
  { apply (sorted_split _ has_date out) in S; [exact S|].
    intros a b Ha Hb. apply no_date_key in Ha.
    apply has_date_key in Hb. destruct Hb as (d & _ & Hb).
    unfold in_order. rewrite Ha, Hb. discriminate. }
  assert (Tail : filter no_date out = filter no_date l).
  { apply sort_by_stable. intros a b Ha Hb. unfold no_date in Ha, Hb.
    apply negb_true_iff in Ha, Hb. apply no_date_key in Ha, Hb.
    rewrite Ha, Hb. reflexivity. }
  exists (filter has_date out). rewrite <- Tail, <- Split.
  split; [apply sorted_events_sort_by|].
  split; [exact P|].
  split; [now apply filter_Permutation|].
  split.
  - apply (StronglySorted_weaken (in_order key_ltb event_key)).
    + intros a b Ha Hb R. apply filter_In in Ha, Hb.
      destruct Ha as [_ Ha], Hb as [_ Hb].
      apply has_date_key in Ha, Hb.
      destruct Ha as (da & Pa & Ka), Hb as (db & Pb & Kb).
      exists da, db. unfold in_order in R. rewrite Ka, Kb in R. auto.
    + now apply StronglySorted_filter.
  - intros k. apply sort_by_stable. intros a b Ha Hb. unfold has_key in Ha, Hb.
    destruct (sort_key_eq_dec (event_key a) k); [|discriminate].
    destruct (sort_key_eq_dec (event_key b) k); [|discriminate].
    subst k. rewrite e0. apply key_ltb_irrefl.
Qed.

(** The ordering example: "10.03.2026", "See details", "01.01.2026",
    "See details". *)
Example sorted_events_example :
  @sorted_events latin1_db
    [ ((text "a", None, None), mkEvent (text "a") (text "10.03.2026") None None None);
      ((text "b", None, None), mkEvent (text "b") See_details None None None);
      ((text "c", None, None), mkEvent (text "c") (text "01.01.2026") None None None);
      ((text "d", None, None), mkEvent (text "d") See_details None None None) ]
  = Ok [ mkEvent (text "c") (text "01.01.2026") None None None;
         mkEvent (text "a") (text "10.03.2026") None None None;
         mkEvent (text "b") See_details None None None;
         mkEvent (text "d") See_details None None None ].
Proof. vm_compute. reflexivity. Qed.

(* ================================================================== *)
(** ** The loop on shared objects and the loop on values agree *)
(* ================================================================== *)

Lemma dict_get_view h d k : dict_get k (view h d) = option_map h (dict_get k d).
Proof.
  induction d as [|[k' a] d IH]; simpl; [reflexivity|].
  destruct (key_eq_dec k k'); auto.
Qed.

Lemma view_dict_set h d k r : view h (dict_set k r d) = dict_set k (h r) (view h d).
Proof.
  induction d as [|[k' a] d IH]; simpl; [reflexivity|].
  destruct (key_eq_dec k k'); simpl; [reflexivity|now rewrite IH].
Qed.

Lemma view_ext h h' d :
  (forall k a, In (k, a) d -> h a = h' a) -> view h d = view h' d.
Proof.
  intros H. induction d as [|[k a] d IH]; simpl; [reflexivity|].
  rewrite (H k a) by now left. f_equal. apply IH.
  intros k' a' I. apply (H k'). now right.
Qed.

Lemma view_store h d k a v :
  NoDup (dict_keys d) ->
  (forall k' a', In (k', a') d -> a' = a -> k' = k) ->
  dict_get k d = Some a ->
  view (store h a v) d = dict_set k v (view h d).
Proof.
  induction d as [|[k' a'] d IH]; intros ND K G; simpl in *; [discriminate|].
  inversion ND as [|? ? Hn ND']; subst.
  destruct (key_eq_dec k k') as [E|E].
  - injection G as ->. subst k'. unfold store at 1. rewrite Nat.eqb_refl.
    f_equal. apply view_ext. intros k2 a2 I. unfold store.
    destruct (Nat.eqb_spec a2 a) as [->|]; [|reflexivity].
    exfalso. apply Hn. rewrite <- (K k2 a) by auto.
    change k2 with (fst (k2, a)). now apply in_map.
  - unfold store at 1. destruct (Nat.eqb_spec a' a) as [->|N].
    + exfalso. apply E. symmetry. apply (K k' a); auto.
    + f_equal. apply IH; auto. intros k2 a2 I. apply K. now right.
Qed.

Lemma dict_set_absent {V} k (v : V) d :
  dict_get k d = None -> dict_set k v d = d ++ [(k, v)].
Proof.
  induction d as [|[k' v'] d IH]; simpl; [reflexivity|].
  destruct (key_eq_dec k k'); [discriminate|]. intros H. now rewrite IH.
Qed.

Lemma dict_get_app_Some {V} k (v : V) d d' :
  dict_get k d = Some v -> dict_get k (d ++ d') = Some v.
Proof.
  induction d as [|[k' v'] d IH]; simpl; [discriminate|].
  destruct (key_eq_dec k k'); auto.
Qed.

Lemma improves_self x : improves x x = false.
Proof.
  destruct (improves x x) eqn:E; [|reflexivity].
  apply improves_true in E. tauto.
Qed.

Lemma absorbs_no_improvement x y :
  absorbs x y ->
  improves (date x) (date y) = false /\ improves (location x) (location y) = false.
Proof.
  intros (_ & Hd & Hl). split.
  - destruct (improves (date x) (date y)) eqn:E; [|reflexivity].
    apply improves_true in E. tauto.
  - destruct (improves (location x) (location y)) eqn:E; [|reflexivity].
    apply improves_true in E. tauto.
Qed.

Lemma absorbs_refl x : absorbs x x.
Proof. unfold absorbs. auto. Qed.

Lemma absorbs_enrich x y e : absorbs x y -> absorbs (enrich x e) y.
Proof.
  intros (K & Hd & Hl). unfold absorbs.
  rewrite enrich_key, enrich_date, enrich_location.
  repeat split; auto; intros H; apply pick_not_placeholder in H; tauto.
Qed.

Lemma store_same h a v : store h a v a = v.
Proof. unfold store. now rewrite Nat.eqb_refl. Qed.

Lemma store_other h a v x : x <> a -> store h a v x = h x.
Proof. intros N. unfold store. now apply Nat.eqb_neq in N as ->. Qed.

(** The two guarded writes leave [enrich] at the address of the stored
    object and nothing else changed. *)
Lemma writes_enrich h a r x :
  a <> r ->
  write_location (write_date h a r) a r x = store h a (enrich (h a) (h r)) x.
Proof.
  intros N. assert (N' : r <> a) by auto.
  unfold write_location, write_date, enrich.
  destruct (improves (date (h a)) (date (h r)));
    rewrite ?store_same, ?(store_other _ _ _ r N'); cbn [location set_date];
    destruct (improves (location (h a)) (location (h r)));
    destruct (Nat.eq_dec x a) as [->|Nx];
    rewrite ?store_same, ?store_other by assumption; reflexivity.
Qed.

Lemma writes_flag h a r :
  a <> r ->
  improves (date (h a)) (date (h r))
  || improves (location (write_date h a r a)) (location (write_date h a r r))
  = updated_flag (h a) (h r).
Proof.
  intros N. assert (N' : r <> a) by auto. unfold updated_flag, write_date.
  destruct (improves (date (h a)) (date (h r)));
    rewrite ?store_same, ?(store_other _ _ _ r N'); reflexivity.
Qed.

Lemma ref_inv_key h0 h d r : ref_inv h0 h d -> key_of (h r) = key_of (h0 r).
Proof.
  intros I. destruct (inv_objects _ _ _ I r) as [->|[_ (K & _)]]; auto.
Qed.

(** One iteration on objects is one iteration on values, and keeps the
    invariant. *)
Lemma merge_ref_step h0 h d n u r :
  ref_inv h0 h d ->
  view_state (merge_ref (h, d, n, u) r)
  = merge_event (view_state (h, d, n, u)) (h0 r)
  /\ ref_inv h0 (fst (fst (fst (merge_ref (h, d, n, u) r))))
                (snd (fst (fst (merge_ref (h, d, n, u) r)))).
Proof.
  intros I. pose proof (ref_inv_key h0 h d r I) as Kr.
  destruct I as [Hk Hn Ho].
  unfold merge_ref, merge_event, view_state. rewrite dict_get_view, <- Kr.
  destruct (dict_get (key_of (h r)) d) as [a|] eqn:G; cbn [option_map fst snd].
  - destruct (Nat.eq_dec a r) as [->|N].
    + assert (A : absorbs (h r) (h0 r)).
      { destruct (Ho r) as [<-|[_ A]]; [apply absorbs_refl|exact A]. }
      destruct (absorbs_no_improvement _ _ A) as [Fd Fl].
      unfold write_location, write_date. rewrite !improves_self. cbn [orb].
      unfold updated_flag. rewrite Fd, Fl.
      rewrite enrich_noop by assumption. cbn [orb].
      rewrite dict_set_get_id
        by (rewrite dict_get_view, G; reflexivity).
      split; [reflexivity|]. now constructor.
    + assert (E : h r = h0 r).
      { destruct (Ho r) as [E|[G' _]]; [exact E|].
        rewrite <- Kr, G in G'. congruence. }
      rewrite <- E. rewrite writes_flag by assumption.
      assert (Ka : forall k' a', In (k', a') d -> a' = a -> k' = key_of (h r)).
      { intros k' a' J ->. rewrite <- (Hk _ _ J).
        apply (Hk _ _ (dict_get_In _ _ _ G)). }
      split.
      * f_equal. f_equal.
        rewrite <- (view_store h d _ a) by assumption.
        apply view_ext. intros k' a' _. now apply writes_enrich.
      * constructor; auto.
        -- intros k' a' J. rewrite writes_enrich by assumption. unfold store.
           destruct (Nat.eqb_spec a' a) as [->|]; [|now apply Hk].
           rewrite enrich_key. now apply Hk.
        -- intros x. rewrite writes_enrich by assumption. unfold store.
           destruct (Nat.eqb_spec x a) as [->|]; [|apply Ho].
           right.
           assert (A : absorbs (h a) (h0 a)).
           { destruct (Ho a) as [<-|[_ A]]; [apply absorbs_refl|exact A]. }
           split; [|now apply absorbs_enrich].
           destruct A as (<- & _).
           rewrite (Hk _ _ (dict_get_In _ _ _ G)). exact G.
  - assert (E : h r = h0 r).
    { destruct (Ho r) as [E|[G' _]]; [exact E|].
      rewrite <- Kr, G in G'. discriminate. }
    rewrite view_dict_set, E. split; [reflexivity|].
    rewrite <- Kr. rewrite (dict_set_absent _ _ _ G). constructor.
    + intros k' a' J. apply in_app_or in J. destruct J as [J|[J|[]]].
      * now apply Hk.
      * now inversion J.
    + unfold dict_keys. rewrite map_app. apply NoDup_app; auto.
      * repeat constructor. simpl. tauto.
      * intros k' J [<-|[]]. now apply dict_get_None_keys in G.
    + intros x. destruct (Ho x) as [Ex|[Gx A]]; [now left|right].
      split; [|exact A]. now apply dict_get_app_Some.
Qed.

Lemma merge_refs_steps h0 events : forall h d n u,
  ref_inv h0 h d ->
  view_state (merge_refs (h, d, n, u) events)
  = merge_loop (view_state (h, d, n, u)) (map h0 events).
Proof.
  unfold merge_refs, merge_loop.
  induction events as [|r events IH]; intros h d n u I; [reflexivity|].
  cbn [fold_left map].
  destruct (merge_ref_step h0 h d n u r I) as [E I'].
  rewrite <- E. destruct (merge_ref (h, d, n, u) r) as [[[h' d'] n'] u'].
  now apply IH.
Qed.

(** The loop of the source, with the incoming dicts filed and written in
    place, ends in the mapping and the counts of the loop on values. *)
Theorem merge_refs_merge_loop (h0 : heap) (persisted : dict addr)
    (events : list addr) (n u : Z) :
  NoDup (dict_keys persisted) ->
  (forall k a, In (k, a) persisted -> key_of (h0 a) = k) ->
  view_state (merge_refs (h0, persisted, n, u) events)
  = merge_loop (view h0 persisted, n, u) (map h0 events).
Proof.
  intros ND K. apply (merge_refs_steps h0 events h0 persisted n u).
  constructor; auto.
Qed.

(** One object met twice in the batch: filed at its first occurrence,
    enriched in place by the second record, and nothing left to do at its
    second occurrence. *)
Example merge_refs_example :
  let h : heap := fun a => match a with
                           | O => kongress_unknown
                           | _ => kongress_21
                           end in
  view_state (merge_refs (h, [], 0, 0) [0; 1; 0]%nat)
  = ([(kongress_key, kongress_21)], 1, 1).
Proof. vm_compute. reflexivity. Qed.

(* ================================================================== *)
(** ** More on the loader *)
(* ================================================================== *)

Lemma dict_keys_set {V} k (v : V) d :
  dict_keys (dict_set k v d)
  = if in_dec key_eq_dec k (dict_keys d) then dict_keys d else dict_keys d ++ [k].
Proof.
  destruct (dict_get k d) as [r|] eqn:G.
  - rewrite (dict_keys_set_present k v d r G).
    destruct (in_dec key_eq_dec k (dict_keys d)) as [_|N]; [reflexivity|].
    exfalso. apply N. apply dict_get_In in G.
    change k with (fst (k, r)). now apply in_map.
  - rewrite (dict_keys_set_absent k v d G).
    destruct (in_dec key_eq_dec k (dict_keys d)) as [I|_]; [|reflexivity].
    exfalso. now apply dict_get_None_keys in G.
Qed.

Lemma dict_set_NoDup {V} k (v : V) d :
  NoDup (dict_keys d) -> NoDup (dict_keys (dict_set k v d)).
Proof.
  intros ND. rewrite dict_keys_set.
  destruct (in_dec key_eq_dec k (dict_keys d)) as [I|N]; [exact ND|].
  apply NoDup_app; auto.
  - repeat constructor. simpl. tauto.
  - intros a Ia [<-|[]]. auto.
Qed.

Lemma titled_set k v d :
  Forall (fun kv : key * event => title (snd kv) <> None) d ->
  title v <> None ->
  Forall (fun kv : key * event => title (snd kv) <> None) (dict_set k v d).
Proof.
  intros H T. induction d as [|[k' v'] d IH]; simpl.
  - constructor; auto.
  - inversion H; subst. destruct (key_eq_dec k k'); constructor; auto.
Qed.

Lemma load_rows_invariant rows : forall acc,
  NoDup (dict_keys acc) -> keyed acc ->
  Forall (fun kv : key * event => title (snd kv) <> None) acc ->
  NoDup (dict_keys (load_rows rows acc)) /\ keyed (load_rows rows acc)
  /\ Forall (fun kv : key * event => title (snd kv) <> None) (load_rows rows acc).
Proof.
  induction rows as [|r rows IH]; intros acc ND K T; simpl; auto.
  destruct r as [|[t|] [|da [|lo [|ur [|so [|x r']]]]]]; auto.
  apply IH.
  - now apply dict_set_NoDup.
  - now apply keyed_set.
  - apply titled_set; auto. simpl. discriminate.
Qed.

(** X1.  Whatever the file holds, the mapping the loader builds has every
    key once, every record under its own [(title, url, source)], and no
    record without a title. *)
Theorem loader_invariant (file : workbook) :
  NoDup (dict_keys (load_existing file))
  /\ keyed (load_existing file)
  /\ Forall (fun ev => title ev <> None) (dict_values (load_existing file)).
Proof.
  assert (E : NoDup (dict_keys (@nil (key * event))) /\ keyed []
              /\ Forall (fun kv : key * event => title (snd kv) <> None) []).
  { repeat split; constructor. }
  assert (H : NoDup (dict_keys (load_existing file))
              /\ keyed (load_existing file)
              /\ Forall (fun kv : key * event => title (snd kv) <> None)
                        (load_existing file)).
  { destruct file as [| |rows]; simpl; auto.
    destruct E as (E1 & E2 & E3). now apply load_rows_invariant. }
  destruct H as (H1 & H2 & H3). repeat split; auto.
  unfold dict_values. now rewrite Forall_map.
Qed.

(** On a sheet that is not five columns wide nothing is unpacked. *)
Lemma load_rows_width (w : nat) rows : forall acc,
  w <> 5%nat -> Forall (fun r : row => List.length r = w) rows ->
  load_rows rows acc = acc.
Proof.
  intros acc W F. induction F as [|r rows L F IH]; simpl; [reflexivity|].
  destruct r as [|[t|] [|da [|lo [|ur [|so [|x r']]]]]]; auto.
  simpl in L. congruence.
Qed.

(** X2.  A sheet that is not five columns wide (a column added or removed
    by hand) is read as if there were no file: the first row with a title
    cannot be unpacked, the exception is caught, and the run goes on
    without any stored record. *)
Theorem loader_needs_five_columns {U : UnicodeDB} (w : nat) (rows : list row)
    (events : list event) :
  w <> 5%nat -> Forall (fun r : row => List.length r = w) rows ->
  load_existing (Sheet rows) = []
  /\ save_to_excel events (Sheet rows) = save_to_excel events Missing.
Proof.
  intros W F.
  assert (E : load_existing (Sheet rows) = []).
  { simpl. apply (load_rows_width w); [exact W|].
    destruct F; simpl; [constructor|assumption]. }
  split; [exact E|]. unfold save_to_excel. now rewrite E.
Qed.

Lemma loader_needs_five_columns_witness :
  load_existing
    (Sheet [[text "Title"; text "Date"; text "Location"; text "URL";
             text "Source"; text "Notes"];
            [text "Kongress A"; text "21. April 2026"; See_details;
             text "https://x/a"; text "X"; None]])
  = []
  /\ @save_to_excel latin1_db [kongress_berlin]
       (Sheet [[text "Title"; text "Date"; text "Location"; text "URL";
                text "Source"; text "Notes"];
               [text "Kongress A"; text "21. April 2026"; See_details;
                text "https://x/a"; text "X"; None]])
     = @save_to_excel latin1_db [kongress_berlin] Missing.
Proof.
  apply (@loader_needs_five_columns latin1_db 6).
  - discriminate.
  - repeat constructor.
Defined.

Lemma find_app {A} (f : A -> bool) l1 l2 :
  find f (l1 ++ l2)
  = match find f l1 with Some x => Some x | None => find f l2 end.
Proof.
  induction l1 as [|a l1 IH]; simpl; [reflexivity|].
  destruct (f a); auto.
Qed.

Lemma key_eqb_eq a b : key_eqb a b = true <-> a = b.
Proof. unfold key_eqb. destruct (key_eq_dec a b); split; congruence. Qed.

Lemma load_record_row r ev rows acc :
  record_of r = Some ev ->
  load_rows (r :: rows) acc = load_rows rows (dict_set (key_of ev) ev acc).
Proof.
  destruct r as [|[t|] [|da [|lo [|ur [|so [|x r']]]]]]; simpl;
    try discriminate.
  intros E. inversion E; subst. reflexivity.
Qed.

Lemma load_record_rows rows : forall evs acc,
  map record_of rows = map Some evs ->
  (forall k, dict_get k (load_rows rows acc)
             = match last_of_key k evs with
               | Some ev => Some ev
               | None => dict_get k acc
               end)
  /\ dict_keys (load_rows rows acc)
     = dict_keys acc ++ distinct_from key_eq_dec (dict_keys acc) (map key_of evs).
Proof.
  induction rows as [|r rows IH]; intros evs acc E.
  - destruct evs; [|discriminate]. simpl.
    split; [reflexivity|now rewrite app_nil_r].
  - destruct evs as [|ev evs]; [discriminate|]. cbn [map] in E.
    inversion E as [[Er E']].
    rewrite (load_record_row r ev rows acc Er).
    destruct (IH evs (dict_set (key_of ev) ev acc) E') as [G K]. split.
    + intros k. rewrite G. unfold last_of_key. cbn [rev]. rewrite find_app.
      destruct (find (fun e => key_eqb (key_of e) k) (rev evs)); [reflexivity|].
      cbn [find]. destruct (key_eqb (key_of ev) k) eqn:Ek.
      * apply key_eqb_eq in Ek. subst k. apply dict_get_set_same.
      * apply dict_get_set_other. intros F. apply key_eqb_eq in F. congruence.
    + rewrite K, dict_keys_set. cbn [map distinct_from].
      destruct (in_dec key_eq_dec (key_of ev) (dict_keys acc)); [reflexivity|].
      now rewrite <- app_assoc.
Qed.

(** X3.  On a sheet whose rows below the header all have five cells and a
    first cell that is not [None], the loader reads every row as the record
    of its cells, and rows of one key are merged on read: the key stands
    where its first row stood and carries the record of its last row (the
    last row wins here, where the merge loop keeps the first value). *)
Theorem loader_last_row_wins (header : row) (rows : list row)
    (evs : list event) :
  map record_of rows = map Some evs ->
  (forall k, dict_get k (load_existing (Sheet (header :: rows)))
             = last_of_key k evs)
  /\ dict_keys (load_existing (Sheet (header :: rows)))
     = distinct_from key_eq_dec [] (map key_of evs).
Proof.
  intros E. simpl. destruct (load_record_rows rows evs [] E) as [G K]. split.
  - intros k. rewrite G. now destruct (last_of_key k evs).
  - exact K.
Qed.

Lemma loader_last_row_wins_witness :
  dict_get kongress_key
    (load_existing
       (Sheet [header_row;
               [text "Kongress A"; See_details; See_details;
                text "https://x/a"; text "X"];
               [text "Kongress A"; text "21. April 2026"; See_details;
                text "https://x/a"; text "X"]]))
  = last_of_key kongress_key [kongress_unknown; kongress_21].
Proof.
  apply (loader_last_row_wins header_row
           [[text "Kongress A"; See_details; See_details;
             text "https://x/a"; text "X"];
            [text "Kongress A"; text "21. April 2026"; See_details;
             text "https://x/a"; text "X"]]
           [kongress_unknown; kongress_21]).
  reflexivity.
Defined.

(* ================================================================== *)
(** ** More on the merge loop *)
(* ================================================================== *)

Lemma first_known_pick a b vs :
  first_known (a :: b :: vs) = first_known (pick a b :: vs).
Proof.
  destruct (cell_eq_dec a See_details) as [->|N].
  - rewrite pick_placeholder. simpl.
    replace (cell_eqb See_details See_details) with true
      by (symmetry; now apply cell_eqb_eq).
    reflexivity.
  - rewrite (pick_kept a b N). simpl.
    destruct (cell_eqb a See_details) eqn:E; [|reflexivity].
    apply cell_eqb_eq in E. congruence.
Qed.

Lemma settled_enrich r ev l :
  settled (r :: ev :: l) = settled (enrich r ev :: l).
Proof.
  unfold settled. cbn [map].
  rewrite !first_known_pick, enrich_date, enrich_location, enrich_title,
    enrich_url, enrich_source.
  reflexivity.
Qed.

Lemma settled_one ev : settled [ev] = Some ev.
Proof.
  unfold settled. simpl.
  destruct ev as [t d l u s]; simpl.
  destruct (cell_eqb d See_details) eqn:Ed; destruct (cell_eqb l See_details) eqn:El;
    try apply cell_eqb_eq in Ed; try apply cell_eqb_eq in El; subst; reflexivity.
Qed.

Lemma fold_step_at_settled k events : forall x,
  fold_left (step_at k) events x = settled (candidates k x events).
Proof.
  induction events as [|ev events IH]; intros x.
  - destruct x as [r|]; simpl; [|reflexivity].
    unfold candidates. simpl. symmetry. apply settled_one.
  - cbn [fold_left]. rewrite IH. unfold step_at, candidates. cbn [filter].
    unfold key_eqb. destruct (key_eq_dec (key_of ev) k) as [E|E].
    + destruct x as [r|]; cbn [app].
      * symmetry. apply settled_enrich.
      * reflexivity.
    + reflexivity.
Qed.

(** X4.  First value wins: after any batch, the record under a key has the
    title, URL and source of the oldest record of that key (the stored one,
    else the first incoming one), and as date, and as location, the first
    value among the stored and the incoming ones, in order, that is not the
    placeholder; a key no record has stays absent. *)
Theorem merge_first_known_wins (st : merge_state) (events : list event) (k : key) :
  dict_get k (merged (merge_loop st events))
  = settled (candidates k (dict_get k (merged st)) events).
Proof. rewrite merge_loop_get. apply fold_step_at_settled. Qed.

Lemma merge_loop_keys_count events : forall st,
  dict_keys (merged (merge_loop st events))
  = dict_keys (merged st)
    ++ distinct_from key_eq_dec (dict_keys (merged st)) (map key_of events)
  /\ new_count (merge_loop st events)
     = new_count st
       + Z.of_nat (List.length (distinct_from key_eq_dec (dict_keys (merged st))
                                              (map key_of events))).
Proof.
  unfold merge_loop.
  induction events as [|ev events IH]; intros st; cbn [fold_left map distinct_from].
  - rewrite app_nil_r. simpl. split; [reflexivity|lia].
  - destruct (IH (merge_event st ev)) as [K C]. rewrite K, C.
    destruct (merge_event_keys st ev) as [(G & Ke & Ce)|(G & Ke & Ce)];
      rewrite Ke, Ce;
      destruct (in_dec key_eq_dec (key_of ev) (dict_keys (merged st))) as [I|N].
    + exfalso. now apply dict_get_None_keys in G.
    + rewrite <- app_assoc. split; [reflexivity|].
      cbn [List.length app]. lia.
    + split; reflexivity.
    + exfalso. apply G. now apply dict_get_None_keys.
Qed.

(** X5.  Order of the mapping: the persisted keys keep their places and the
    keys that are new follow, each once, in the order the batch first
    brings them; this is the order [sorted] starts from. *)
Theorem merged_key_order (persisted : pydict) (events : list event) :
  dict_keys (merged (reconcile persisted events))
  = dict_keys persisted
    ++ distinct_from key_eq_dec (dict_keys persisted) (map key_of events).
Proof. apply (merge_loop_keys_count events (persisted, 0, 0)). Qed.

Lemma merge_event_counts st ev :
  new_count st <= new_count (merge_event st ev)
  /\ updated_count st <= updated_count (merge_event st ev)
  /\ new_count (merge_event st ev) + updated_count (merge_event st ev)
     <= new_count st + updated_count st + 1.
Proof.
  destruct st as [[d n] u]. unfold merge_event, new_count, updated_count.
  destruct (dict_get (key_of ev) d) as [r|]; cbn [fst snd].
  - destruct (updated_flag r ev); lia.
  - lia.
Qed.

Lemma merge_loop_counts events : forall st,
  new_count st <= new_count (merge_loop st events)
  /\ updated_count st <= updated_count (merge_loop st events)
  /\ new_count (merge_loop st events) + updated_count (merge_loop st events)
     <= new_count st + updated_count st + Z.of_nat (List.length events).
Proof.
  unfold merge_loop.
  induction events as [|ev events IH]; intros st; cbn [fold_left List.length].
  - lia.
  - destruct (IH (merge_event st ev)) as (A & B & C).
    destruct (merge_event_counts st ev) as (A' & B' & C'). lia.
Qed.

(** X6.  The two counts of the log line: [new_count] is the number of
    distinct keys of the batch that the persisted mapping did not have;
    [updated_count] is not negative; and no incoming record is counted
    twice, so the two together do not exceed the size of the batch. *)
Theorem run_summary_counts (persisted : pydict) (events : list event) :
  new_count (reconcile persisted events)
  = Z.of_nat (List.length (distinct_from key_eq_dec (dict_keys persisted)
                                         (map key_of events)))
  /\ 0 <= updated_count (reconcile persisted events)
  /\ new_count (reconcile persisted events)
     + updated_count (reconcile persisted events)
     <= Z.of_nat (List.length events).
Proof.
  destruct (merge_loop_keys_count events (persisted, 0, 0)) as [_ C].
  destruct (merge_loop_counts events (persisted, 0, 0)) as (_ & B & S).
  change (new_count (persisted, 0, 0)) with 0 in *.
  change (updated_count (persisted, 0, 0)) with 0 in *.
  change (merged (persisted, 0, 0)) with persisted in *.
  unfold reconcile. repeat split; lia.
Qed.

Lemma merge_event_offset d n u ev :
  merge_event (d, n, u) ev
  = (merged (merge_event (d, 0, 0) ev),
     n + new_count (merge_event (d, 0, 0) ev),
     u + updated_count (merge_event (d, 0, 0) ev)).
Proof.
  unfold merge_event, merged, new_count, updated_count.
  destruct (dict_get (key_of ev) d) as [r|]; cbn [fst snd].
  - destruct (updated_flag r ev); now rewrite ?Z.add_0_r, ?Z.add_0_l.
  - now rewrite ?Z.add_0_r, ?Z.add_0_l.
Qed.

Lemma merge_loop_offset events : forall d n u,
  merge_loop (d, n, u) events
  = (merged (merge_loop (d, 0, 0) events),
     n + new_count (merge_loop (d, 0, 0) events),
     u + updated_count (merge_loop (d, 0, 0) events)).
Proof.
  unfold merge_loop.
  induction events as [|ev events IH]; intros d n u; cbn [fold_left].
  - unfold merged, new_count, updated_count. cbn [fst snd].
    now rewrite !Z.add_0_r.
  - rewrite (merge_event_offset d n u ev).
    destruct (merge_event (d, 0, 0) ev) as [[d1 n1] u1] eqn:E.
    unfold merged at 1, new_count at 1, updated_count at 1. cbn [fst snd].
    rewrite (IH d1 (n + n1) (u + u1)), (IH d1 n1 u1).
    unfold merged, new_count, updated_count. cbn [fst snd].
    now rewrite !Z.add_assoc.
Qed.

(** X7.  One run over the batches of several adapters put end to end is
    the same as reconciling the first batch and then the second against its
    outcome: the same mapping, and counts that add up. *)
Theorem reconcile_batches (persisted : pydict) (batch1 batch2 : list event) :
  reconcile persisted (batch1 ++ batch2)
  = (merged (reconcile (merged (reconcile persisted batch1)) batch2),
     new_count (reconcile persisted batch1)
     + new_count (reconcile (merged (reconcile persisted batch1)) batch2),
     updated_count (reconcile persisted batch1)
     + updated_count (reconcile (merged (reconcile persisted batch1)) batch2)).
Proof.
  unfold reconcile. rewrite merge_loop_app.
  destruct (merge_loop (persisted, 0, 0) batch1) as [[d1 n1] u1].
  rewrite merge_loop_offset. reflexivity.
Qed.

(** X8.  The loop as the source runs it, filing the incoming dicts
    themselves and writing into the filed dicts in place, builds the same
    mapping of records and the same two counts as the loop on values, for
    any batch of references, repeated ones included, when the persisted
    objects are filed under their own keys, each key once. *)
Theorem shared_objects_agree (h0 : heap) (persisted : dict addr)
    (events : list addr) :
  NoDup (dict_keys persisted) ->
  (forall k a, In (k, a) persisted -> key_of (h0 a) = k) ->
  view_state (merge_refs (h0, persisted, 0, 0) events)
  = reconcile (view h0 persisted) (map h0 events).
Proof.
  intros ND K. unfold reconcile.
  apply (merge_refs_steps h0 events h0 persisted 0 0).
  constructor; auto.
Qed.

Lemma shared_objects_agree_witness :
  view_state (merge_refs (sample_heap, [(kongress_key, 0%nat)], 0, 0)
                         [1; 2; 1; 0]%nat)
  = reconcile (view sample_heap [(kongress_key, 0%nat)])
              (map sample_heap [1; 2; 1; 0]%nat).
Proof.
  apply (shared_objects_agree sample_heap [(kongress_key, 0%nat)]
                              [1; 2; 1; 0]%nat).
  - repeat constructor. simpl. tauto.
  - intros k a [E|[]]. inversion E. reflexivity.
Defined.

(* ================================================================== *)
(** ** More on [parse_date] *)
(* ================================================================== *)

Lemma datetime_new_Ok y m d dt :
  datetime_new y m d = Ok dt -> valid_date y m d = true /\ dt = midnight y m d.
Proof.
  unfold datetime_new. destruct (valid_date y m d); [|discriminate].
  intros E. inversion E. auto.
Qed.

Lemma days_in_month_le y m : days_in_month y m <= 31.
Proof.
  unfold days_in_month. destruct m as [|p|p]; try lia.
  do 4 (try destruct p as [p|p|]; try lia; try (destruct (is_leap y); lia)).
Qed.

Lemma midnight_before_max y m d :
  valid_date y m d = true -> datetime_ltb (midnight y m d) datetime_max = true.
Proof.
  unfold valid_date. rewrite !andb_true_iff, !Z.leb_le.
  intros (((((Y1 & Y2) & M1) & M2) & D1) & D2).
  pose proof (days_in_month_le y m).
  unfold datetime_ltb, midnight, datetime_fields, datetime_max, lex_ltb.
  cbn [year month day hour minute second microsecond].
  destruct (Z.ltb_spec y 9999); [reflexivity|].
  destruct (Z.eqb_spec y 9999); [|lia]. cbn [orb andb].
  destruct (Z.ltb_spec m 12); [reflexivity|].
  destruct (Z.eqb_spec m 12); [|lia]. cbn [orb andb].
  destruct (Z.ltb_spec d 31); [reflexivity|].
  destruct (Z.eqb_spec d 31); [|lia]. reflexivity.
Qed.

Section ParsedDates.
Context {U : UnicodeDB}.

Lemma try_numeric_Some s dt :
  try_numeric s = Ok (Some dt) ->
  exists y m d, valid_date y m d = true /\ dt = midnight y m d.
Proof.
  unfold try_numeric. destruct (re_match numeric_re s) as [g|]; [|discriminate].
  destruct (py_int (group g 3)) as [y|[]]; cbn [bind try_except_ValueError];
    try discriminate.
  destruct (py_int (group g 2)) as [m|[]]; cbn [bind try_except_ValueError];
    try discriminate.
  destruct (py_int (group g 1)) as [d|[]]; cbn [bind try_except_ValueError];
    try discriminate.
  destruct (datetime_new y m d) as [dt'|[]] eqn:E;
    cbn [bind try_except_ValueError]; try discriminate.
  intros H. inversion H; subst. apply datetime_new_Ok in E. eauto.
Qed.

Lemma try_month_name_Some s dt :
  try_month_name s = Ok (Some dt) ->
  exists y m d, valid_date y m d = true /\ dt = midnight y m d.
Proof.
  unfold try_month_name.
  destruct (re_match month_name_re s) as [g|]; [|discriminate].
  destruct (py_int (group g 1)) as [d|]; cbn [bind]; [|discriminate].
  destruct (py_lower (group g 3)) as [n|]; cbn [bind]; [|discriminate].
  destruct (py_int (group g 4)) as [y|]; cbn [bind]; [|discriminate].
  destruct (month_lookup n month_map) as [m|]; [|discriminate].
  destruct (datetime_new y m d) as [dt'|[]] eqn:E;
    cbn [bind try_except_ValueError]; try discriminate.
  intros H. inversion H; subst. apply datetime_new_Ok in E. eauto.
Qed.
End ParsedDates.

(** X9.  Whenever [parse_date] returns a date, it is a day of the calendar
    (years 1 to 9999, the month's real length) at midnight, and so sorts
    strictly before [datetime.max], the key of the records without a
    date. *)
Theorem parse_date_gives_calendar_day {U : UnicodeDB} (date_str : cell)
    (dt : datetime) :
  parse_date date_str = Ok (Some dt) ->
  valid_date (year dt) (month dt) (day dt) = true
  /\ dt = midnight (year dt) (month dt) (day dt)
  /\ datetime_ltb dt datetime_max = true.
Proof.
  intros H.
  assert (E : exists y m d, valid_date y m d = true /\ dt = midnight y m d).
  { unfold parse_date in H. destruct date_str as [s|]; [|discriminate].
    destruct (is_empty s || cell_eqb (Some s) See_details); [discriminate|].
    destruct (try_numeric s) as [[dt'|]|] eqn:T; cbn [bind] in H;
      try discriminate.
    - inversion H; subst. now apply (try_numeric_Some s).
    - now apply (try_month_name_Some s). }
  destruct E as (y & m & d & V & ->). cbn [year month day midnight].
  repeat split; auto using midnight_before_max.
Qed.

Lemma parse_date_gives_calendar_day_witness :
  valid_date 2026 3 10 = true
  /\ midnight 2026 3 10 = midnight 2026 3 10
  /\ datetime_ltb (midnight 2026 3 10) datetime_max = true.
Proof.
  apply (@parse_date_gives_calendar_day latin1_db (text "10.03.2026")
           (midnight 2026 3 10)).
  vm_compute. reflexivity.
Defined.

(** X10.  Both patterns start with a digit: a text whose first character
    is no decimal digit ("April 21, 2026", "tba") has no date. *)
Theorem parse_date_needs_leading_digit {U : UnicodeDB} (c : N) (s : str) :
  Py_UNICODE_ISDECIMAL c = false -> parse_date (Some (c :: s)) = Ok None.
Proof.
  intros H. destruct (no_leading_digit c s H) as [H1 H2].
  now apply parse_date_no_match.
Qed.

Lemma parse_date_needs_leading_digit_witness :
  @parse_date latin1_db (text "April 21, 2026") = Ok None.
Proof.
  apply (@parse_date_needs_leading_digit latin1_db (chr "A") (py "pril 21, 2026")).
  reflexivity.
Defined.

(* ================================================================== *)
(** ** A single day with a month name *)
(* ================================================================== *)

Lemma letter_facts c :
  (c <? 256)%N && latin1_isalnum c && negb (latin1_isdecimal c) = true ->
  (c < 256)%N /\ latin1_isalnum c = true /\ latin1_isdecimal c = false
  /\ latin1_isspace c = false
  /\ (c =? chr ".")%N = false /\ (c =? chr "/")%N = false.
Proof.
  intros H. apply andb_true_iff in H. destruct H as [H D].
  apply andb_true_iff in H. destruct H as [B A].
  apply N.ltb_lt in B. apply negb_true_iff in D.
  pose proof (below_256_check
    (fun c => implb (latin1_isalnum c)
                (negb (latin1_isspace c) && negb (c =? chr ".")%N
                 && negb (c =? chr "/")%N)) eq_refl c B) as K.
  simpl in K. rewrite A in K. simpl in K.
  repeat (apply andb_true_iff in K; destruct K as [K ?]).
  repeat match goal with H : negb _ = true |- _ => apply negb_true_iff in H end.
  auto 10.
Qed.

Lemma is_letters_chars name :
  is_letters name = true ->
  name <> []
  /\ forall c, In c name ->
       (c < 256)%N /\ latin1_isalnum c = true /\ latin1_isdecimal c = false
       /\ latin1_isspace c = false
       /\ (c =? chr ".")%N = false /\ (c =? chr "/")%N = false.
Proof.
  unfold is_letters. intros H. apply andb_true_iff in H. destruct H as [E F].
  split; [intros ->; discriminate|].
  rewrite forallb_forall in F. intros c I. apply letter_facts. now apply F.
Qed.

Lemma repeat_greedy_blocked p lo hi s :
  blocked p s -> repeat_greedy p (S lo) hi s = [].
Proof.
  intros B. destruct s as [|c s]; simpl.
  - destruct (exhausted hi); reflexivity.
  - simpl in B. rewrite B. destruct (exhausted hi); reflexivity.
Qed.

Section SingleDay.
Context {U : UnicodeDB} (C : Latin1Compatible U).

Lemma first_Opt_skip n a lo hi s g :
  blocked (atom_matches a) s ->
  first_match (Opt (Group n (Rep a (S lo) hi))) s g = Some (g, s).
Proof.
  intros B. unfold first_match. simpl.
  now rewrite repeat_greedy_blocked.
Qed.

Lemma letters_block (a : atom) name rest :
  is_letters name = true ->
  a = Digit \/ a = Space \/ a = Lit (chr ".") \/ a = Lit (chr "/") ->
  blocked (atom_matches a) (name ++ rest).
Proof.
  intros L A. destruct (is_letters_chars name L) as [N F].
  apply blocked_app; [exact N|]. intros c I.
  destruct (F c I) as (B & _ & D & S & P & Q).
  destruct A as [ -> | [ -> | [ -> | -> ] ] ]; simpl; auto.
  - now rewrite (compat_isdecimal U C).
  - now rewrite (compat_isspace U C).
Qed.

Lemma letters_word name :
  is_letters name = true -> forallb (atom_matches Word) name = true.
Proof.
  intros L. destruct (is_letters_chars name L) as [_ F].
  apply forallb_forall. intros c I. destruct (F c I) as (B & A & _).
  simpl. now rewrite (compat_isalnum U C), A.
Qed.

Lemma letters_Latin1 name : is_letters name = true -> Latin1 name.
Proof.
  intros L. destruct (is_letters_chars name L) as [_ F].
  apply Forall_forall. intros c I. now apply F.
Qed.

(** From the month name on: the name, a blank, the year, the rest. *)
Lemma first_from_name name y rest g :
  is_letters name = true -> is_digits y = true -> List.length y = 4%nat ->
  first_match (Opt (Group 2 (Rep Digit 1 (Some 2%nat)))
               +> maybe (Lit (chr ".")) +> star Space
               +> Group 3 (plus Word) +> plus Space
               +> Group 4 (Rep Digit 4 (Some 4%nat)))
              (name ++ chr " " :: y ++ rest) g
  = Some ((4%nat, y) :: (3%nat, name) :: g, rest).
Proof.
  intros L Hy Ly. destruct (is_letters_chars name L) as [N _].
  destruct (is_digits_cons y Hy) as (cy & y' & Ey & _ & Fy).
  eapply first_Seq; [apply first_Opt_skip; apply letters_block; auto|].
  eapply first_Seq; [apply first_skip; apply letters_block; auto|].
  eapply first_Seq; [apply first_skip; apply letters_block; auto|].
  eapply first_Seq.
  { apply first_Group. apply (first_Rep Word 1 None name).
    - now apply letters_word.
    - now apply length_pos.
    - discriminate.
    - right. apply (space_not_word C). }
  rewrite consumed_app.
  eapply first_Seq.
  { apply (first_Rep Space 1 None [chr " "]).
    - apply (space_run C).
    - simpl; lia.
    - discriminate.
    - right. apply (digits_block C); auto. }
  apply (first_digits C);
    [assumption|lia|intros h E; inversion E; lia|left; now rewrite Ly].
Qed.

Lemma single_day_first_match d sep name y rest :
  is_digits d = true -> (List.length d <= 2)%nat ->
  In sep [py " "; py ". "; py "."] ->
  is_letters name = true -> is_digits y = true -> List.length y = 4%nat ->
  first_match month_name_re (d ++ sep ++ name ++ chr " " :: y ++ rest) []
  = Some ([(4%nat, y); (3%nat, name); (1%nat, d)], rest).
Proof.
  intros Hd Ld Hsep L Hy Ly.
  destruct (is_digits_cons d Hd) as (c1 & d' & E1 & _ & F1).
  assert (B : forall a, a = Digit \/ a = Space \/ a = Lit (chr ".")
                        \/ a = Lit (chr "/") ->
              blocked (atom_matches a) (name ++ chr " " :: y ++ rest))
    by (intros a; now apply letters_block).
  pose proof (first_from_name name y rest [(1%nat, d)] L Hy Ly) as T.
  unfold month_name_re.
  eapply first_Seq.
  { apply (first_digits C);
      [assumption|rewrite E1; simpl; lia|intros h E; inversion E; lia|].
    right. destruct Hsep as [ <- | [ <- | [ <- | [] ] ] ]; simpl;
      now apply (not_decimal C). }
  destruct Hsep as [ <- | [ <- | [ <- | [] ] ] ].
  - eapply first_Seq; [apply first_skip; reflexivity|].
    eapply first_Seq; [apply first_skip; reflexivity|].
    eapply first_Seq; [apply first_skip; reflexivity|].
    eapply first_Seq; [|exact T].
    apply (first_Rep Space 0 None [chr " "]);
      [apply (space_run C)|simpl; lia|discriminate|right; auto].
  - eapply first_Seq; [apply first_maybe_take|].
    eapply first_Seq; [apply first_skip; reflexivity|].
    eapply first_Seq; [apply first_skip; reflexivity|].
    eapply first_Seq; [|exact T].
    apply (first_Rep Space 0 None [chr " "]);
      [apply (space_run C)|simpl; lia|discriminate|right; auto].
  - eapply first_Seq; [apply first_maybe_take|].
    eapply first_Seq; [apply first_skip; auto|].
    eapply first_Seq; [apply first_skip; auto|].
    eapply first_Seq; [apply first_skip; auto|]. exact T.
Qed.

Lemma single_day_not_numeric d sep name tail :
  is_digits d = true -> In sep [py " "; py ". "; py "."] ->
  is_letters name = true ->
  re_match numeric_re (d ++ sep ++ name ++ tail) = None.
Proof.
  intros Hd Hsep L.
  destruct (re_match numeric_re _) as [m|] eqn:M; [exfalso|reflexivity].
  apply numeric_re_shape in M.
  destruct M as (d0 & m' & yy & rest' & E & Fd & Fm & Nm & Fy & Ny).
  destruct (is_digits_cons d Hd) as (c1 & d1' & _ & _ & F1).
  assert (N32 : Py_UNICODE_ISDECIMAL (chr " ") = false)
    by now apply (not_decimal C).
  simpl in N32.
  apply (run_unique Py_UNICODE_ISDECIMAL) in E;
    [|now apply (digits_isdecimal C)|assumption| |apply (dot_blocks_digits C)].
  - destruct E as [_ E]. destruct m' as [|cm m']; [congruence|].
    simpl in Fm. apply andb_true_iff in Fm. destruct Fm as [Fc _].
    destruct Hsep as [ <- | [ <- | [ <- | [] ] ] ]; simpl in E.
    + discriminate.
    + injection E as <- _. congruence.
    + injection E as E.
      pose proof (letters_block Digit name tail L (or_introl eq_refl)) as B.
      rewrite E in B. simpl in B. congruence.
  - destruct Hsep as [ <- | [ <- | [ <- | [] ] ] ]; simpl;
      now apply (not_decimal C).
Qed.
End SingleDay.

(** X11.  A single day [DD <MonthName> YYYY], the day followed by a blank,
    by ". " or by "." ("15 MAR 2026", "21. April 2026"), whatever follows
    the year: the month name is looked up in lower case, and the result is
    that day when the name is in [month_map] and the day is in the calendar,
    and no date when the name is unknown or the day does not exist. *)
Theorem parse_date_single_day {U : UnicodeDB} (d sep name y rest : str) :
  Latin1Compatible U ->
  is_digits d = true -> (List.length d <= 2)%nat ->
  In sep [py " "; py ". "; py "."] ->
  is_letters name = true ->
  is_digits y = true -> List.length y = 4%nat ->
  parse_date (Some (d ++ sep ++ name ++ py " " ++ y ++ rest))
  = Ok (match month_lookup (map latin1_tolower name) month_map with
        | Some mo =>
            if valid_date (decimal y) mo (decimal d)
            then Some (midnight (decimal y) mo (decimal d)) else None
        | None => None
        end).
Proof.
  intros C Hd Ld Hsep L Hy Ly. change (py " " ++ y ++ rest) with (chr " " :: y ++ rest).
  destruct (is_digits_cons d Hd) as (c1 & d' & E1 & Hc1 & _).
  pose proof (single_day_not_numeric C d sep name (chr " " :: y ++ rest)
                Hd Hsep L) as N.
  pose proof (single_day_first_match C d sep name y rest Hd Ld Hsep L Hy Ly) as M.
  rewrite E1 in N, M |- *. cbn [app] in N, M |- *.
  rewrite (parse_date_leading_digit c1 _ Hc1).
  unfold try_numeric. rewrite N. cbn [bind].
  unfold try_month_name. rewrite re_match_first, M.
  cbn [option_map fst group Nat.eqb].
  rewrite <- E1. rewrite !(py_int_ascii C) by assumption.
  cbn [bind py_lower].
  rewrite (compat_lower U C) by now apply letters_Latin1.
  destruct (month_lookup (map latin1_tolower name) month_map) as [mo|];
    [|reflexivity].
  unfold datetime_new, midnight.
  destruct (valid_date (decimal y) mo (decimal d)); reflexivity.
Qed.

Lemma parse_date_single_day_witness :
  @parse_date latin1_db (text "21. April 2026 in Berlin")
  = Ok (Some (midnight 2026 4 21))
  /\ @parse_date latin1_db (text "15 MAR 2026") = Ok (Some (midnight 2026 3 15))
  /\ @parse_date latin1_db (text "5 Foo 2026") = Ok None.
Proof.
  split; [|split].
  - refine (@parse_date_single_day latin1_db (py "21") (py ". ") (py "April")
              (py "2026") (py " in Berlin") latin1_db_compatible
              eq_refl (le_n 2) _ eq_refl eq_refl eq_refl).
    right. left. reflexivity.
  - refine (@parse_date_single_day latin1_db (py "15") (py " ") (py "MAR")
              (py "2026") [] latin1_db_compatible
              eq_refl (le_n 2) _ eq_refl eq_refl eq_refl).
    left. reflexivity.
  - refine (@parse_date_single_day latin1_db (py "5") (py " ") (py "Foo")
              (py "2026") [] latin1_db_compatible
              eq_refl _ _ eq_refl eq_refl eq_refl).
    + simpl. lia.
    + left. reflexivity.
Defined.

(* ================================================================== *)
(** ** Texts neither pattern reaches across *)
(* ================================================================== *)

Lemma has_pair_run (p1 p2 : N -> bool) a : forall d b,
  a <> [] -> forallb p1 a = true -> p2 d = true ->
  has_pair p1 p2 (a ++ d :: b) = true.
Proof.
  induction a as [|c a IH]; intros d b N F P; [congruence|].
  simpl in F. apply andb_true_iff in F. destruct F as [Fc F].
  destruct a as [|c' a].
  - simpl. now rewrite Fc, P.
  - change (has_pair p1 p2 ((c :: c' :: a) ++ d :: b))
      with ((p1 c && p2 c') || has_pair p1 p2 ((c' :: a) ++ d :: b)).
    rewrite IH by (auto; discriminate). apply orb_true_r.
Qed.

Lemma has_pair_app_r (p1 p2 : N -> bool) x : forall s,
  has_pair p1 p2 s = true -> has_pair p1 p2 (x ++ s) = true.
Proof.
  induction x as [|c x IH]; intros s H; [exact H|].
  specialize (IH s H). cbn [app].
  destruct (x ++ s) as [|d tl] eqn:E; [discriminate|].
  change (has_pair p1 p2 (c :: d :: tl))
    with ((p1 c && p2 d) || has_pair p1 p2 (d :: tl)).
  rewrite IH. apply orb_true_r.
Qed.

(** No pair when nothing in the front part passes the first test and
    nothing in the back part passes the second. *)
Lemma has_pair_none (p1 p2 : N -> bool) a : forall b,
  forallb (fun c => negb (p1 c)) a = true ->
  forallb (fun c => negb (p2 c)) b = true ->
  has_pair p1 p2 (a ++ b) = false.
Proof.
  induction a as [|c a IH]; intros b Fa Fb.
  - simpl. induction b as [|c b IHb]; [reflexivity|].
    simpl in Fb. apply andb_true_iff in Fb. destruct Fb as [_ Fb].
    destruct b as [|d b]; [reflexivity|].
    change (has_pair p1 p2 (c :: d :: b))
      with ((p1 c && p2 d) || has_pair p1 p2 (d :: b)).
    rewrite (IHb Fb). simpl in Fb. apply andb_true_iff in Fb.
    destruct Fb as [Fd _]. apply negb_true_iff in Fd. rewrite Fd.
    now rewrite andb_false_r.
  - simpl in Fa. apply andb_true_iff in Fa. destruct Fa as [Fc Fa].
    apply negb_true_iff in Fc. cbn [app].
    destruct (a ++ b) as [|d tl] eqn:E; [reflexivity|].
    change (has_pair p1 p2 (c :: d :: tl))
      with ((p1 c && p2 d) || has_pair p1 p2 (d :: tl)).
    rewrite Fc. cbn [andb orb]. rewrite <- E. now apply IH.
Qed.

(** A match that only takes characters of a class cannot reach across a
    character outside it. *)
Lemma match_stays_in_front (take : N -> bool) (w : str) : forall p x rest rest',
  w ++ rest = p ++ x :: rest' ->
  forallb take w = true -> take x = false -> exists t, p = w ++ t.
Proof.
  induction w as [|c w IH]; intros p x rest rest' E F X.
  - now exists p.
  - simpl in F. apply andb_true_iff in F. destruct F as [Fc F].
    destruct p as [|c' p]; simpl in E.
    + injection E as -> _. congruence.
    + injection E as -> E. destruct (IH p x rest rest' E F X) as [t ->].
      now exists t.
Qed.

Lemma forallb_weaken {A} (p q : A -> bool) l :
  (forall a, p a = true -> q a = true) -> forallb p l = true -> forallb q l = true.
Proof.
  intros H. rewrite !forallb_forall. auto.
Qed.

Lemma forallb_app_true {A} (p : A -> bool) l1 l2 :
  forallb p l1 = true -> forallb p l2 = true -> forallb p (l1 ++ l2) = true.
Proof. intros H1 H2. rewrite forallb_app, H1, H2. reflexivity. Qed.

Section Reach.
Context {U : UnicodeDB}.

Lemma exec_Rep_text a lo hi s g g' rest :
  In (g', rest) (exec (Rep a lo hi) s g) ->
  exists w, s = w ++ rest /\ forallb (atom_matches a) w = true
            /\ (lo <= List.length w)%nat.
Proof.
  simpl. intros H. apply in_map_iff in H. destruct H as (x & E & H).
  inversion E; subst. apply repeat_greedy_sound in H.
  destruct H as (w & -> & F & L & _). eauto.
Qed.

Lemma atom_is_month_name_char a c :
  a = Digit \/ a = Word \/ a = Space \/ a = Lit (chr ".") \/ a = Lit (chr "/") ->
  atom_matches a c = true -> month_name_char c = true.
Proof.
  unfold month_name_char.
  intros [ -> | [ -> | [ -> | [ -> | -> ] ] ] ] H; cbn [atom_matches] in *;
    rewrite H; rewrite ?orb_true_r; reflexivity.
Qed.

Ltac take_rep H w t E F L :=
  let g := fresh "g" in let R := fresh "R" in
  apply exec_Seq_In in H; destruct H as (g & t & R & H);
  apply exec_Rep_text in R; destruct R as (w & E & F & L);
  apply (forallb_weaken _ month_name_char) in F;
  [|intros ?; apply atom_is_month_name_char; auto 10].

(** What a match of the month-name pattern has taken: characters of its
    five classes only, among them a white space followed by a digit. *)
Lemma month_name_re_text s m :
  re_match month_name_re s = Some m ->
  exists w rest, s = w ++ rest /\ forallb month_name_char w = true
    /\ forall t, has_pair Py_UNICODE_ISSPACE Py_UNICODE_ISDECIMAL (w ++ t) = true.
Proof.
  intros H. apply re_match_In in H. destruct H as (rest & H).
  unfold month_name_re, maybe, star, plus in H.
  apply exec_Seq_In in H. destruct H as (g1 & r1 & G1 & H).
  apply exec_Group_Rep_In in G1. destruct G1 as (w1 & _ & E1 & F1 & _).
  apply (forallb_weaken _ month_name_char) in F1;
    [|intros ?; apply atom_is_month_name_char; auto].
  take_rep H w2 r2 E2 F2 L2. take_rep H w3 r3 E3 F3 L3.
  take_rep H w4 r4 E4 F4 L4. take_rep H w5 r5 E5 F5 L5.
  apply exec_Seq_In in H. destruct H as (g6 & r6 & G6 & H).
  assert (X6 : exists w6, r5 = w6 ++ r6 /\ forallb month_name_char w6 = true).
  { apply exec_Opt_In in G6. destruct G6 as [G6|G6].
    - apply exec_Group_Rep_In in G6. destruct G6 as (w6 & _ & E6 & F6 & _).
      exists w6. split; [exact E6|].
      apply (forallb_weaken _ month_name_char) in F6; auto.
      intros ?; apply atom_is_month_name_char; auto.
    - inversion G6; subst. now exists []. }
  clear G6. destruct X6 as (w6 & E6 & F6).
  take_rep H w7 r7 E7 F7 L7. take_rep H w8 r8 E8 F8 L8.
  apply exec_Seq_In in H. destruct H as (g9 & r9 & G9 & H).
  apply exec_Group_Rep_In in G9. destruct G9 as (w9 & _ & E9 & F9 & _).
  apply (forallb_weaken _ month_name_char) in F9;
    [|intros ?; apply atom_is_month_name_char; auto].
  apply exec_Seq_In in H. destruct H as (g10 & r10 & G10 & H).
  apply exec_Rep_text in G10. destruct G10 as (w10 & E10 & S10 & L10).
  pose proof (forallb_weaken _ month_name_char _
                (fun c => atom_is_month_name_char Space c
                            (or_intror (or_intror (or_introl eq_refl)))) S10)
    as F10.
  apply exec_Group_Rep_In in H. destruct H as (w11 & _ & E11 & D11 & L11 & _).
  pose proof (forallb_weaken _ month_name_char _
                (fun c => atom_is_month_name_char Digit c (or_introl eq_refl)) D11)
    as F11.
  exists (w1 ++ w2 ++ w3 ++ w4 ++ w5 ++ w6 ++ w7 ++ w8 ++ w9 ++ w10 ++ w11), rest.
  split; [|split].
  - subst. now rewrite <- !app_assoc.
  - repeat (apply forallb_app_true; [assumption|]). assumption.
  - intros t. rewrite <- !app_assoc.
    do 8 apply has_pair_app_r. rewrite !app_assoc. rewrite <- !app_assoc.
    apply has_pair_app_r.
    destruct w11 as [|d w11]; [simpl in L11; lia|].
    simpl in D11. apply andb_true_iff in D11. destruct D11 as [Dd _].
    cbn [app]. apply has_pair_run; auto.
    intros ->. simpl in L10. lia.
Qed.

(** What a match of the numeric pattern has taken: digits and dots only,
    among them a dot followed by a digit. *)
Lemma numeric_re_text s m :
  re_match numeric_re s = Some m ->
  exists w rest, s = w ++ rest
    /\ forallb (fun c => Py_UNICODE_ISDECIMAL c || (c =? chr ".")%N) w = true
    /\ forall t, has_pair (fun c => (c =? chr ".")%N) Py_UNICODE_ISDECIMAL
                          (w ++ t) = true.
Proof.
  intros H. apply numeric_re_shape in H.
  destruct H as (d & mo & y & rest & -> & Fd & Fm & Nm & Fy & Ny).
  assert (W : forall l, forallb Py_UNICODE_ISDECIMAL l = true ->
                forallb (fun c => Py_UNICODE_ISDECIMAL c || (c =? chr ".")%N) l
                = true).
  { intros l. apply forallb_weaken. intros a ->. reflexivity. }
  exists (d ++ chr "." :: mo ++ chr "." :: y), rest. split; [|split].
  - rewrite <- app_assoc. cbn [app]. rewrite <- app_assoc. reflexivity.
  - apply forallb_app_true; [now apply W|]. cbn [forallb].
    rewrite N.eqb_refl, orb_true_r. cbn [andb].
    apply forallb_app_true; [now apply W|]. cbn [forallb].
    rewrite N.eqb_refl, orb_true_r. cbn [andb]. now apply W.
  - intros t. rewrite <- app_assoc. apply has_pair_app_r.
    destruct mo as [|c mo]; [congruence|].
    simpl in Fm. apply andb_true_iff in Fm. destruct Fm as [Fc _].
    change (has_pair (fun c0 => (c0 =? chr ".")%N) Py_UNICODE_ISDECIMAL
              ([chr "."] ++ c :: (mo ++ chr "." :: y) ++ t) = true).
    apply has_pair_run; auto; discriminate.
Qed.

Lemma foreign_facts x :
  foreign x = true ->
  month_name_char x = false
  /\ Py_UNICODE_ISDECIMAL x || (x =? chr ".")%N = false.
Proof.
  unfold foreign, month_name_char. intros H.
  repeat (apply andb_true_iff in H; destruct H as [H ?]).
  repeat match goal with H : negb _ = true |- _ =>
    apply negb_true_iff in H; rewrite H end.
  auto.
Qed.

(** A character neither pattern can take stops both, unless a pattern is
    already satisfied in front of it. *)
Lemma foreign_character_stops p x rest :
  foreign x = true ->
  has_pair Py_UNICODE_ISSPACE Py_UNICODE_ISDECIMAL p = false ->
  has_pair (fun c => (c =? chr ".")%N) Py_UNICODE_ISDECIMAL p = false ->
  parse_date (Some (p ++ x :: rest)) = Ok None.
Proof.
  intros F S D. destruct (foreign_facts x F) as [Fm Fn].
  apply parse_date_no_match.
  - destruct (re_match numeric_re _) as [m|] eqn:M; [exfalso|reflexivity].
    apply numeric_re_text in M. destruct M as (w & r & E & A & P).
    destruct (match_stays_in_front _ w p x r rest (eq_sym E) A Fn) as [t ->].
    rewrite P in D. discriminate.
  - destruct (re_match month_name_re _) as [m|] eqn:M; [exfalso|reflexivity].
    apply month_name_re_text in M. destruct M as (w & r & E & A & P).
    destruct (match_stays_in_front _ w p x r rest (eq_sym E) A Fm) as [t ->].
    rewrite P in S. discriminate.
Qed.
End Reach.

(** X12.  Digits, then any text without digits, then a character that is
    no digit, word character, white space, "." or "/" (a hyphen, a dash, a
    zero-width space): such a text has no date, whatever follows.  These
    are the ranges the adapters write: "1-3 June 2026" ([eurofm.py], line
    35), "21. - 22. April 2026" and "30. April - 2. Mai 2026" ([realfm.py],
    lines 43-45), and "11./" + U+200B + "12. Maerz 2026"
    ([facility_manager.py], lines 35 and 61). *)
Theorem parse_date_range_with_dash {U : UnicodeDB} (d q rest : str) (x : N) :
  Latin1Compatible U ->
  forallb latin1_isdecimal d = true ->
  forallb (fun c => negb (Py_UNICODE_ISDECIMAL c)) q = true ->
  foreign x = true ->
  parse_date (Some (d ++ q ++ x :: rest)) = Ok None.
Proof.
  intros C Fd Fq Fx. rewrite app_assoc.
  apply foreign_character_stops; [exact Fx| |].
  - apply has_pair_none; [|exact Fq].
    apply forallb_forall. intros c I. rewrite forallb_forall in Fd.
    specialize (Fd c I). rewrite (compat_isspace U C) by now apply digit_below.
    destruct (digit_facts c Fd) as (-> & _). reflexivity.
  - apply has_pair_none; [|exact Fq].
    apply forallb_forall. intros c I. rewrite forallb_forall in Fd.
    specialize (Fd c I). destruct (digit_facts c Fd) as (_ & _ & -> & _).
    reflexivity.
Qed.

Lemma parse_date_range_with_dash_witness :
  @parse_date latin1_db (text "1-3 June 2026") = Ok None
  /\ @parse_date latin1_db (text "30. April - 2. Mai 2026") = Ok None
  /\ @parse_date latin1_db
       (Some (py "11./" ++ zero_width_space :: py "12. M" ++ a_umlaut :: py "rz 2026"))
     = Ok None.
Proof.
  split; [|split].
  - exact (@parse_date_range_with_dash latin1_db (py "1") [] (py "3 June 2026")
             (chr "-") latin1_db_compatible eq_refl eq_refl eq_refl).
  - exact (@parse_date_range_with_dash latin1_db (py "30") (py ". April ")
             (py " 2. Mai 2026") (chr "-") latin1_db_compatible
             eq_refl eq_refl eq_refl).
  - exact (@parse_date_range_with_dash latin1_db (py "11") (py "./")
             (py "12. M" ++ a_umlaut :: py "rz 2026") zero_width_space
             latin1_db_compatible eq_refl eq_refl eq_refl).
Defined.

(* ================================================================== *)
(** ** The whole run *)
(* ================================================================== *)

Lemma insert_by_front {K A} (ltb : K -> K -> bool) (g : A -> K) x l :
  Forall (in_order ltb g x) l -> insert_by ltb g x l = x :: l.
Proof.
  destruct l as [|y l]; simpl; [reflexivity|].
  intros F. inversion F as [|? ? H _]; subst. unfold in_order in H.
  now rewrite H.
Qed.

(** A list already in order is left as it is. *)
Lemma sort_by_fixed {K A} (ltb : K -> K -> bool) (g : A -> K) l :
  StronglySorted (in_order ltb g) l -> sort_by ltb g l = l.
Proof.
  induction 1 as [|x l S IH F]; simpl; [reflexivity|].
  fold (sort_by ltb g l). rewrite IH. now apply insert_by_front.
Qed.

Lemma sort_by_event_key_fixed {U : UnicodeDB} (l : list event) :
  sort_by key_ltb event_key (sort_by key_ltb event_key l)
  = sort_by key_ltb event_key l.
Proof.
  apply sort_by_fixed. apply sort_by_sorted.
  - apply key_ltb_asym.
  - apply key_ltb_negtrans.
Qed.

(** X13.  For records whose dates are text or absent, [sorted] returns a
    list, and sorting that list again with the same key changes nothing:
    the order handed to the writer is a fixed point of the ordering. *)
Theorem sorted_events_fixed {U : UnicodeDB} (existing_events : pydict) :
  exists out,
    sorted_events existing_events = Ok out
    /\ py_sorted key_ltb sort_key out = Ok out.
Proof.
  exists (sort_by key_ltb event_key (dict_values existing_events)). split.
  - apply sorted_events_sort_by.
  - rewrite (py_sorted_sort_by key_ltb sort_key event_key _ sort_key_event_key).
    f_equal. apply sort_by_event_key_fixed.
Qed.

Lemma load_existing_wf file :
  NoDup (dict_keys (load_existing file)) /\ keyed (load_existing file)
  /\ Forall (fun kv : key * event => title (snd kv) <> None) (load_existing file).
Proof.
  destruct file as [| |rows]; simpl; try (repeat split; constructor).
  apply load_rows_invariant; constructor.
Qed.

Lemma keyed_values d : keyed d -> map key_of (dict_values d) = dict_keys d.
Proof.
  intros W. unfold dict_keys, dict_values. rewrite map_map.
  apply map_ext_in. intros kv Hkv. unfold keyed in W.
  rewrite Forall_forall in W. now apply W.
Qed.

Lemma distinct_from_In {A} (eq_dec : forall a b : A, {a = b} + {a <> b}) l :
  forall seen x,
    In x (seen ++ distinct_from eq_dec seen l) <-> In x seen \/ In x l.
Proof.
  induction l as [|a l IH]; intros seen x; cbn [distinct_from].
  - rewrite app_nil_r. simpl. tauto.
  - destruct (in_dec eq_dec a seen) as [I|N].
    + rewrite IH. simpl. split; [tauto|].
      intros [H|[H|H]]; auto. subst. auto.
    + change (a :: distinct_from eq_dec (seen ++ [a]) l)
        with ([a] ++ distinct_from eq_dec (seen ++ [a]) l).
      rewrite app_assoc, IH, in_app_iff. simpl. tauto.
Qed.

Lemma save_to_excel_sort_by {U : UnicodeDB} events file :
  let st := reconcile (load_existing file) events in
  save_to_excel events file
  = Ok (sort_by key_ltb event_key (dict_values (merged st)),
        new_count st, updated_count st).
Proof.
  intros st. unfold save_to_excel. fold st.
  now rewrite sorted_events_sort_by.
Qed.

Lemma reconcile_loaded_wf events file :
  let st := reconcile (load_existing file) events in
  Z.of_nat (List.length (merged st))
  = Z.of_nat (List.length (load_existing file)) + new_count st
  /\ NoDup (dict_keys (merged st))
  /\ keyed (merged st).
Proof.
  intros st. destruct (load_existing_wf file) as (ND & K & _).
  destruct (merge_loop_shape events (load_existing file, 0, 0) ND)
    as (L & N & _ & W).
  fold (reconcile (load_existing file) events) in L, N, W. fold st in L, N, W.
  change (merged (load_existing file, 0, 0)) with (load_existing file) in *.
  change (new_count (load_existing file, 0, 0)) with 0 in *.
  repeat split; auto. lia.
Qed.

(** X14.  On a file that is absent, unreadable, or a sheet of text and
    empty cells, a run gets to the writer.  The records it hands over are
    the merged records, each key once; their number is the number of
    records loaded plus the count logged as new; and the keys handed over
    are exactly the keys loaded together with the keys scraped. *)
Theorem save_to_excel_rows {U : UnicodeDB} (events : list event) (file : workbook) :
  let st := reconcile (load_existing file) events in
  exists out,
    save_to_excel events file = Ok (out, new_count st, updated_count st)
    /\ Permutation out (dict_values (merged st))
    /\ Z.of_nat (List.length out)
       = Z.of_nat (List.length (load_existing file)) + new_count st
    /\ NoDup (map key_of out)
    /\ (forall k, In k (map key_of out)
                  <-> In k (dict_keys (load_existing file))
                      \/ In k (map key_of events)).
Proof.
  intros st.
  exists (sort_by key_ltb event_key (dict_values (merged st))).
  pose proof (sort_by_Permutation key_ltb event_key (dict_values (merged st)))
    as Pm.
  destruct (reconcile_loaded_wf events file) as (L & ND & W). fold st in L, ND, W.
  assert (Ks : Permutation
                 (map key_of (sort_by key_ltb event_key (dict_values (merged st))))
                 (dict_keys (merged st))).
  { rewrite <- (keyed_values _ W). now apply Permutation_map. }
  split; [apply save_to_excel_sort_by|]. split; [exact Pm|]. split; [|split].
  - rewrite (Permutation_length Pm). unfold dict_values. now rewrite length_map.
  - apply (Permutation_NoDup (Permutation_sym Ks) ND).
  - intros k.
    destruct (merge_loop_keys_count events (load_existing file, 0, 0)) as [Ko _].
    fold (reconcile (load_existing file) events) in Ko. fold st in Ko.
    change (merged (load_existing file, 0, 0)) with (load_existing file) in Ko.
    rewrite <- distinct_from_In with (eq_dec := key_eq_dec), <- Ko.
    split; intros H.
    + apply (Permutation_in _ Ks H).
    + apply (Permutation_in _ (Permutation_sym Ks) H).
Qed.

(** Rows of distinct keys are loaded one binding each, in their order. *)
Lemma load_rows_distinct rows : forall evs acc,
  map record_of rows = map Some evs ->
  NoDup (dict_keys acc ++ map key_of evs) ->
  load_rows rows acc = acc ++ map (fun ev => (key_of ev, ev)) evs.
Proof.
  induction rows as [|r rows IH]; intros evs acc E ND.
  - destruct evs; [|discriminate]. simpl. now rewrite app_nil_r.
  - destruct evs as [|ev evs]; [discriminate|]. cbn [map] in E.
    inversion E as [[Er E']].
    rewrite (load_record_row r ev rows acc Er).
    assert (G : dict_get (key_of ev) acc = None).
    { destruct (dict_get (key_of ev) acc) as [x|] eqn:G; [|reflexivity].
      exfalso. cbn [map] in ND. apply NoDup_remove_2 in ND. apply ND.
      apply in_or_app. left. apply dict_get_In in G.
      change (key_of ev) with (fst (key_of ev, x)). now apply in_map. }
    rewrite (dict_set_absent _ _ _ G).
    rewrite (IH evs); [cbn [map]; now rewrite <- app_assoc|exact E'|].
    unfold dict_keys in *. rewrite map_app, <- app_assoc. exact ND.
Qed.

(** X15.  A sheet that holds, row for row and cell for cell, the records
    a run handed to the writer, loaded with nothing scraped: the same
    records are handed to the writer, in the same order, and nothing is
    counted as new or updated.  What the workbook library stores for a
    record is not part of the statement. *)
Theorem rerun_on_same_records {U : UnicodeDB} (events : list event)
    (file : workbook) (out : list event) (n u : Z) (header : row)
    (rows : list row) :
  save_to_excel events file = Ok (out, n, u) ->
  map record_of rows = map Some out ->
  save_to_excel [] (Sheet (header :: rows)) = Ok (out, 0, 0).
Proof.
  intros Run Rows. rewrite save_to_excel_sort_by in Run.
  set (st := reconcile (load_existing file) events) in *.
  assert (Eo : out = sort_by key_ltb event_key (dict_values (merged st)))
    by congruence.
  clear Run.
  pose proof (sort_by_Permutation key_ltb event_key (dict_values (merged st)))
    as Pm.
  rewrite <- Eo in Pm.
  destruct (reconcile_loaded_wf events file) as (_ & ND & W). fold st in ND, W.
  assert (No : NoDup (map key_of out)).
  { apply (Permutation_NoDup (l := dict_keys (merged st))); [|exact ND].
    rewrite <- (keyed_values _ W). apply Permutation_map.
    now apply Permutation_sym. }
  assert (Ld : load_existing (Sheet (header :: rows))
               = map (fun ev => (key_of ev, ev)) out).
  { simpl. now rewrite (load_rows_distinct rows out [] Rows No). }
  rewrite save_to_excel_sort_by, Ld.
  change (reconcile (map (fun ev => (key_of ev, ev)) out) [])
    with (map (fun ev : event => (key_of ev, ev)) out, 0, 0).
  change (merged (map (fun ev : event => (key_of ev, ev)) out, 0, 0))
    with (map (fun ev : event => (key_of ev, ev)) out).
  replace (dict_values (map (fun ev : event => (key_of ev, ev)) out)) with out
    by (unfold dict_values; rewrite map_map; simpl; now rewrite map_id).
  rewrite Eo, sort_by_event_key_fixed. reflexivity.
Qed.

Lemma rerun_on_same_records_witness :
  @save_to_excel latin1_db []
    (Sheet [header_row;
            [text "Tagung B"; text "21.04.2026"; See_details;
             text "https://x/b"; text "X"];
            [text "Kongress A"; text "22. April 2026"; See_details;
             text "https://x/a"; text "X"]])
  = Ok ([mkEvent (text "Tagung B") (text "21.04.2026") See_details
                 (text "https://x/b") (text "X");
         kongress_22], 0, 0).
Proof.
  apply (@rerun_on_same_records latin1_db
           [kongress_22;
            mkEvent (text "Tagung B") (text "21.04.2026") See_details
                    (text "https://x/b") (text "X")]
           Missing _ 2 0).
  - vm_compute. reflexivity.
  - reflexivity.
Defined.

(* ================================================================== *)
(** ** Deduplication in the adapters *)
(* ================================================================== *)

Lemma distinct_from_NoDup {A} (eq_dec : forall a b : A, {a = b} + {a <> b}) l :
  forall seen, NoDup seen -> NoDup (seen ++ distinct_from eq_dec seen l).
Proof.
  induction l as [|a l IH]; intros seen ND; cbn [distinct_from].
  - now rewrite app_nil_r.
  - destruct (in_dec eq_dec a seen) as [I|N]; [now apply IH|].
    change (a :: distinct_from eq_dec (seen ++ [a]) l)
      with ([a] ++ distinct_from eq_dec (seen ++ [a]) l).
    rewrite app_assoc. apply IH. apply NoDup_app; auto.
    + repeat constructor. simpl. tauto.
    + intros x Ix [<-|[]]. auto.
Qed.

Lemma dedup_loop_find field v events : forall seen unique,
  (forall x, In x seen <-> In x (map field unique)) ->
  find (fun ev => cell_eqb (field ev) v) (dedup_loop field events seen unique)
  = match find (fun ev => cell_eqb (field ev) v) unique with
    | Some e => Some e
    | None => find (fun ev => cell_eqb (field ev) v) events
    end.
Proof.
  induction events as [|ev events IH]; intros seen unique S;
    cbn [dedup_loop find].
  - now destruct (find _ unique).
  - destruct (in_dec cell_eq_dec (field ev) seen) as [I|N].
    + rewrite (IH _ _ S).
      destruct (find (fun e => cell_eqb (field e) v) unique) eqn:F;
        [reflexivity|].
      destruct (cell_eqb (field ev) v) eqn:E; [|reflexivity].
      exfalso. apply S in I. apply in_map_iff in I. destruct I as (e & Ee & Ie).
      apply (find_none _ _ F) in Ie. cbn beta in Ie.
      rewrite Ee, E in Ie. discriminate.
    + rewrite IH.
      * rewrite find_app. cbn [find].
        destruct (find (fun e => cell_eqb (field e) v) unique); [reflexivity|].
        now destruct (cell_eqb (field ev) v).
      * intros x. rewrite map_app, in_app_iff. simpl. rewrite S. tauto.
Qed.

Lemma dedup_loop_fields field events : forall seen unique,
  (forall x, In x seen <-> In x (map field unique)) ->
  map field (dedup_loop field events seen unique)
  = map field unique
    ++ distinct_from cell_eq_dec (map field unique) (map field events).
Proof.
  induction events as [|ev events IH]; intros seen unique S;
    cbn [dedup_loop map distinct_from].
  - now rewrite app_nil_r.
  - destruct (in_dec cell_eq_dec (field ev) seen) as [I|N];
      destruct (in_dec cell_eq_dec (field ev) (map field unique)) as [I'|N'];
      try (exfalso; apply S in I; tauto);
      try (exfalso; apply S in I'; tauto).
    + now apply IH.
    + rewrite IH.
      * rewrite map_app, <- app_assoc. reflexivity.
      * intros x. rewrite map_app, in_app_iff. simpl. rewrite S. tauto.
Qed.

Lemma dedup_loop_incl field events : forall seen unique ev,
  In ev (dedup_loop field events seen unique) -> In ev unique \/ In ev events.
Proof.
  induction events as [|e events IH]; intros seen unique ev H;
    cbn [dedup_loop] in H; [now left|].
  destruct (in_dec cell_eq_dec (field e) seen).
  - apply IH in H. simpl. tauto.
  - apply IH in H. rewrite in_app_iff in H. simpl in *. tauto.
Qed.

Lemma dedup_by_NoDup field events : NoDup (map field (dedup_by field events)).
Proof.
  unfold dedup_by. rewrite (dedup_loop_fields field events [] []); [|tauto].
  apply (distinct_from_NoDup cell_eq_dec (map field events) []). constructor.
Qed.

(** X16.  The deduplication loop of the adapters (on the URL in
    [builtworld.py], on the title in [i2fm.py]) keeps, for every value of
    the field, the first record that has it and no other: the values of
    the result are the distinct values of the input in the order they
    first appear, and nothing is added. *)
Theorem dedup_keeps_first_occurrences (field : event -> cell)
    (events : list event) :
  let unique_events := dedup_by field events in
  NoDup (map field unique_events)
  /\ map field unique_events = distinct_from cell_eq_dec [] (map field events)
  /\ (forall v, first_with field v unique_events = first_with field v events)
  /\ incl unique_events events.
Proof.
  intros unique_events. subst unique_events. split; [apply dedup_by_NoDup|].
  split; [|split].
  - unfold dedup_by. now rewrite (dedup_loop_fields field events [] []).
  - intros v. unfold first_with, dedup_by.
    now rewrite (dedup_loop_find field v events [] []).
  - intros ev H. apply dedup_loop_incl in H. destruct H as [[]|H]. exact H.
Qed.

Lemma NoDup_map_eq {A B} (f : A -> B) l a b :
  NoDup (map f l) -> In a l -> In b l -> f a = f b -> a = b.
Proof.
  induction l as [|x l IH]; intros ND Ia Ib E; [destruct Ia|].
  cbn [map] in ND. inversion ND as [|? ? N ND']; subst.
  destruct Ia as [->|Ia], Ib as [->|Ib]; auto.
  - exfalso. apply N. rewrite E. now apply in_map.
  - exfalso. apply N. rewrite <- E. now apply in_map.
Qed.

(** Records told apart by a field of the key cannot contradict each
    other. *)
Lemma distinct_field_conflict_free (field : event -> cell) l :
  (forall a b, key_of a = key_of b -> field a = field b) ->
  NoDup (map field l) -> conflict_free l.
Proof.
  intros Hk ND a b Ia Ib K.
  rewrite (NoDup_map_eq field l a b ND Ia Ib (Hk a b K)).
  unfold agree. auto.
Qed.

Lemma key_of_url a b : key_of a = key_of b -> url a = url b.
Proof. unfold key_of. congruence. Qed.

Lemma key_of_title a b : key_of a = key_of b -> title a = title b.
Proof. unfold key_of. congruence. Qed.

Lemma apply_details_key dt ev :
  title (apply_details dt ev) = title ev
  /\ url (apply_details dt ev) = url ev
  /\ source (apply_details dt ev) = source ev.
Proof.
  unfold apply_details.
  destruct (found_date dt), (found_location dt); repeat split.
Qed.

Lemma look_up_key responses i ev :
  title (look_up responses i ev) = title ev
  /\ key_of (look_up responses i ev) = key_of ev.
Proof.
  unfold look_up.
  destruct (truthy (url ev) && cell_eqb (date ev) See_details); [|now split].
  destruct (apply_details_key (responses i) ev) as (T & Ur & So).
  unfold key_of. now rewrite T, Ur, So.
Qed.

Lemma look_up_from_keys responses events : forall i,
  map title (look_up_from responses i events) = map title events
  /\ map key_of (look_up_from responses i events) = map key_of events
  /\ List.length (look_up_from responses i events) = List.length events.
Proof.
  induction events as [|ev events IH]; intros i; simpl; [now repeat split|].
  destruct (IH (S i)) as (T & K & L).
  destruct (look_up_key responses i ev) as [Te Ke].
  now rewrite T, K, L, Te, Ke.
Qed.

Lemma fetch_details_keys responses events :
  map title (fetch_details responses events) = map title events
  /\ map key_of (fetch_details responses events) = map key_of events.
Proof.
  unfold fetch_details.
  destruct (look_up_from_keys responses (firstn 10 events) 0) as (T & K & _).
  rewrite !map_app, T, K, <- !map_app, firstn_skipn. now split.
Qed.

Lemma skipn_past {A} n (front l : list A) :
  List.length front = List.length (firstn n l) ->
  skipn n (front ++ skipn n l) = skipn n l.
Proof.
  intros L. rewrite length_firstn in L.
  rewrite skipn_app, skipn_skipn, L.
  rewrite (skipn_all2 front) by lia. simpl.
  destruct (Nat.le_gt_cases n (List.length l)) as [H|H].
  - now replace (n - Nat.min n (List.length l) + n)%nat with n by lia.
  - rewrite !skipn_all2 by lia. reflexivity.
Qed.

Lemma i2fm_batch_titles responses events :
  NoDup (map title (i2fm_batch responses events)).
Proof.
  unfold i2fm_batch.
  destruct (fetch_details_keys responses (dedup_by title events)) as [-> _].
  apply dedup_by_NoDup.
Qed.

(** X17.  What [scrape_i2fm_events] does after deduplicating: the detail
    pages change no key and no position, the batch still has every title
    once, and every record after the tenth is returned as it was. *)
Theorem i2fm_batch_shape (responses : nat -> details) (events : list event) :
  let out := i2fm_batch responses events in
  map key_of out = map key_of (dedup_by title events)
  /\ NoDup (map title out)
  /\ skipn 10 out = skipn 10 (dedup_by title events).
Proof.
  intros out. subst out. split; [|split].
  - apply fetch_details_keys.
  - apply i2fm_batch_titles.
  - unfold i2fm_batch, fetch_details. apply skipn_past.
    apply look_up_from_keys.
Qed.

(** X18.  The batches of [builtworld.py] (deduplicated by URL) and of
    [i2fm.py] (deduplicated by title, then looked up) hold every identity
    key at most once, so the order in which such a batch reaches the merge
    loop does not matter: any rearrangement of it leaves the same record
    under every key. *)
Theorem deduplicated_batch_order_free (persisted : pydict)
    (responses : nat -> details) (events batch batch' : list event) :
  batch = dedup_by url events \/ batch = i2fm_batch responses events ->
  Permutation batch batch' ->
  NoDup (map key_of batch)
  /\ forall k, dict_get k (merged (reconcile persisted batch))
               = dict_get k (merged (reconcile persisted batch')).
Proof.
  intros B Pm.
  assert (C : exists field : event -> cell,
             (forall a b, key_of a = key_of b -> field a = field b)
             /\ NoDup (map field batch)).
  { destruct B as [->| ->].
    - exists url. split; [apply key_of_url|apply dedup_by_NoDup].
    - exists title. split; [apply key_of_title|apply i2fm_batch_titles]. }
  destruct C as (field & Hk & ND). split.
  - clear Pm B. induction batch as [|a l IH]; [constructor|].
    cbn [map] in *. inversion ND as [|? ? N ND']; subst.
    constructor; [|now apply IH].
    intros I. apply in_map_iff in I. destruct I as (b & Kb & Ib).
    apply N. rewrite <- (Hk b a Kb). now apply in_map.
  - intros k. unfold reconcile. rewrite !merge_loop_get.
    apply fold_step_at_Permutation; [exact Pm|].
    now apply (distinct_field_conflict_free field).
Qed.

Lemma deduplicated_batch_order_free_witness :
  NoDup (map key_of (dedup_by url
           [kongress_21; kongress_22;
            mkEvent (text "Tagung B") (text "21.04.2026") See_details
                    (text "https://x/b") (text "X")]))
  /\ dict_get kongress_key
       (merged (reconcile [] (dedup_by url
                  [kongress_21; kongress_22;
                   mkEvent (text "Tagung B") (text "21.04.2026") See_details
                           (text "https://x/b") (text "X")])))
     = dict_get kongress_key
         (merged (reconcile []
                  [mkEvent (text "Tagung B") (text "21.04.2026") See_details
                           (text "https://x/b") (text "X");
                   kongress_21])).
Proof.
  destruct (deduplicated_batch_order_free [] (fun _ => mkDetails None None)
              [kongress_21; kongress_22;
               mkEvent (text "Tagung B") (text "21.04.2026") See_details
                       (text "https://x/b") (text "X")]
              (dedup_by url
                 [kongress_21; kongress_22;
                  mkEvent (text "Tagung B") (text "21.04.2026") See_details
                          (text "https://x/b") (text "X")])
              [mkEvent (text "Tagung B") (text "21.04.2026") See_details
                       (text "https://x/b") (text "X");
               kongress_21]) as [H1 H2].
  - left. reflexivity.
  - vm_compute. apply perm_swap.
  - split; [exact H1|apply H2].
Defined.
